(** * telpy: a minimal telnet client

    A shallow embedding of [telpy.py] (class [TelnetConnection]) and the
    verification of its negotiation and session engine.

    Python values are modelled as follows.
    - An [int] is a [Z]; an index into a byte string is a [nat] (the code
      only ever counts upwards from 0).
    - A [bytes] object is a [list byte]; indexing it yields the [int] value
      of the byte, and an index out of range raises [IndexError].
    - A [str] is a [string]; a character is its code point, and the
      ['ascii'] codec accepts the code points below 128 only.
    - The instance ([self]) together with its socket and the terminal is a
      record [session]: the flags [debug] and [logged_in], the two host
      names, the byte strings the peer is still going to deliver ([inbox]),
      the socket traffic so far ([trace]) and the lines printed so far
      ([stdout]).
    - A method is a function from the session to an [outcome]: a normal
      return, [sys.exit], or an uncaught exception, each with the session
      at that point.

    The peer is a finite script: [inbox] lists what the successive calls of
    [conn.recv(1024)] return, and after the last of them the peer has closed
    the connection, so that [recv] returns [b'']. A [recv] that blocks for
    ever or fails with a socket error is outside the model, and so are
    characters beyond code point 255, which the ['ascii'] codec rejects
    like those from 128 to 255. The two [while True] loops and the scan of
    [negotiate] run on a turn counter that is shown never to run out. *)

From Stdlib Require Import ZArith List String Ascii Bool Arith Lia.
From Stdlib.Strings Require Import Byte.
Import ListNotations.

(** ** Bytes, ints and strings *)

Definition bytes := list byte.

(** [data[i]] on a bytes object gives an int in [range(256)]. *)
Definition int_of_byte (b : byte) : Z := Z.of_N (Byte.to_N b).

(** One element of [bytes(ints)]: outside [range(256)] is a [ValueError]. *)
Definition byte_of_int (z : Z) : option byte :=
  if (0 <=? z)%Z && (z <? 256)%Z then Byte.of_N (Z.to_N z) else None.

Fixpoint bytes_of_ints (l : list Z) : option bytes :=
  match l with
  | [] => Some []
  | z :: l' =>
      match byte_of_int z, bytes_of_ints l' with
      | Some b, Some bs => Some (b :: bs)
      | _, _ => None
      end
  end.

(** [bytes(s, 'ascii')]: [None] stands for [UnicodeEncodeError]. *)
Definition is_ascii (c : ascii) : bool := (N_of_ascii c <? 128)%N.

Definition encode_ascii (s : string) : option bytes :=
  if forallb is_ascii (list_ascii_of_string s)
  then Some (list_byte_of_string s)
  else None.

(** Iterating over a [str] yields its characters as one-character strings
    ([list(self.prompts)], and [enumerate] over a [str]). *)
Definition chars (s : string) : list string :=
  map (fun c => String c EmptyString) (list_ascii_of_string s).

Definition newline : string := String "010"%char EmptyString.

(** [phrase in data] for two bytes objects: [phrase] occurs in [data] as a
    contiguous block. *)
Fixpoint starts_with (p d : bytes) : bool :=
  match p, d with
  | [], _ => true
  | _ :: _, [] => false
  | x :: p', y :: d' => Byte.eqb x y && starts_with p' d'
  end.

Fixpoint bytes_in (p d : bytes) : bool :=
  starts_with p d ||
  match d with
  | [] => false
  | _ :: d' => bytes_in p d'
  end.

(** ** The command table *)

Definition commands : list (string * Z) :=
  [ ("SE", 240); ("NOP", 241); ("DM", 242); ("BRK", 243); ("IP", 244);
    ("AO", 245); ("AYT", 246); ("EC", 247); ("EL", 248); ("GA", 249);
    ("SB", 250); ("WILL", 251); ("WONT", 252); ("DO", 253); ("DONT", 254);
    ("IAC", 255) ]%string%Z.

Definition prompts : string := ":>$#%".

(** [self.commands[name]] for the names the code uses; all of them are keys
    of the table (see [commands_keys]). *)
Definition command (name : string) : Z :=
  match find (fun kv => String.eqb (fst kv) name) commands with
  | Some kv => snd kv
  | None => 0%Z
  end.

Definition IAC : Z := command "IAC".
Definition WILL : Z := command "WILL".
Definition WONT : Z := command "WONT".
Definition DO : Z := command "DO".
Definition DONT : Z := command "DONT".

(** [match_code]: the first name of the table that carries [code]. *)
Definition match_code (code : Z) : option string :=
  match find (fun kv => Z.eqb (snd kv) code) commands with
  | Some kv => Some (fst kv)
  | None => None
  end.

(** ** Sessions and outcomes *)

Inductive io_event : Type :=
| EvSend (b : bytes)      (* conn.send(b) *)
| EvRecv (b : bytes).     (* conn.recv(1024) returned b *)

(** What [print] wrote; the text of a line is kept in structured form. *)
Inductive line : Type :=
| LText (s : string)
| LDebug (host : string) (data : bytes)   (* '%s: %s' % (host, data) *)
| LIac (name : string) (val : Z)          (* 'IAC %s %d' % (code, val) *)
| LUnknownIac                             (* 'Unknown IAC encountered!' *)
| LBlank                                  (* print() *)
| LNoMethod (code : Z)     (* 'No method to handle IAC code: %d' % code *)
| LUnableToWrite (cmd : string).   (* '[-] Unable to write: `%s` to terminal' *)

Record session : Type := mkSession {
  debug : bool;
  logged_in : bool;
  client : string;
  serv : string;
  inbox : list bytes;
  trace : list io_event;
  stdout : list line
}.

Definition set_logged_in (v : bool) (s : session) : session :=
  mkSession (debug s) v (client s) (serv s) (inbox s) (trace s) (stdout s).

Definition set_debug_flag (v : bool) (s : session) : session :=
  mkSession v (logged_in s) (client s) (serv s) (inbox s) (trace s) (stdout s).

Definition set_inbox (v : list bytes) (s : session) : session :=
  mkSession (debug s) (logged_in s) (client s) (serv s) v (trace s) (stdout s).

Definition log_io (e : io_event) (s : session) : session :=
  mkSession (debug s) (logged_in s) (client s) (serv s) (inbox s)
            (trace s ++ [e]) (stdout s).

Definition log_line (l : line) (s : session) : session :=
  mkSession (debug s) (logged_in s) (client s) (serv s) (inbox s)
            (trace s) (stdout s ++ [l]).

(** The bytes handed to [conn.send], in order. *)
Fixpoint sent_of (t : list io_event) : list bytes :=
  match t with
  | [] => []
  | EvSend b :: t' => b :: sent_of t'
  | EvRecv _ :: t' => sent_of t'
  end.

Definition sent (s : session) : list bytes := sent_of (trace s).

(** The number of [conn.recv] calls so far. *)
Fixpoint recvs_of (t : list io_event) : nat :=
  match t with
  | [] => 0
  | EvSend _ :: t' => recvs_of t'
  | EvRecv _ :: t' => S (recvs_of t')
  end.

Inductive exn : Type := IndexError | ValueError | UnicodeEncodeError.

Inductive outcome (A : Type) : Type :=
| Ret (a : A) (s : session)          (* normal return *)
| Exit (status : Z) (s : session)    (* sys.exit: the process ends *)
| Raise (e : exn) (s : session)      (* uncaught exception *)
| OutOfFuel.                         (* loop bound of the model exhausted *)

Arguments Ret {A} a s.
Arguments Exit {A} status s.
Arguments Raise {A} e s.
Arguments OutOfFuel {A}.

Definition M (A : Type) : Type := session -> outcome A.

Definition ret {A} (a : A) : M A := fun s => Ret a s.

Definition bind {A B} (m : M A) (k : A -> M B) : M B :=
  fun s =>
    match m s with
    | Ret a s' => k a s'
    | Exit c s' => Exit c s'
    | Raise e s' => Raise e s'
    | OutOfFuel => OutOfFuel
    end.

Declare Scope py_scope.
Delimit Scope py_scope with py.
Notation "x <- m ;; k" := (bind m (fun x => k))
  (at level 100, m at next level, right associativity) : py_scope.
Notation "m ;; k" := (bind m (fun _ => k))
  (at level 100, right associativity) : py_scope.
Local Open Scope py_scope.

Definition raise {A} (e : exn) : M A := fun s => Raise e s.

(** [sys.exit()] ends the process with status 0, [sys.exit(1)] with 1. *)
Definition sys_exit {A} (status : Z) : M A := fun s => Exit status s.

Definition print (l : line) : M unit := fun s => Ret tt (log_line l s).

Definition get_session : M session := fun s => Ret s s.

(** [data[i]]: [item] is the int found at index [i], if any. *)
Definition item (data : bytes) (i : nat) : option Z :=
  option_map int_of_byte (nth_error data i).

Definition getitem (data : bytes) (i : nat) : M Z :=
  match item data i with
  | Some z => ret z
  | None => raise IndexError
  end.

Definition encode (s : string) : M bytes :=
  match encode_ascii s with
  | Some b => ret b
  | None => raise UnicodeEncodeError
  end.

(** [self.conn.send(b)] *)
Definition send (b : bytes) : M unit := fun s => Ret tt (log_io (EvSend b) s).

(** [self.conn.recv(1024)]: the next byte string of the peer; once the peer
    has nothing left it has closed, and [recv] returns [b'']. *)
Definition recv : M bytes :=
  fun s =>
    match inbox s with
    | [] => Ret [] (log_io (EvRecv []) s)
    | c :: rest => Ret c (log_io (EvRecv c) (set_inbox rest s))
    end.

Fixpoint for_each {A} (l : list A) (body : A -> M unit) : M unit :=
  match l with
  | [] => ret tt
  | a :: l' => body a ;; for_each l' body
  end.

(** ** The methods of [TelnetConnection] *)

(** [print('DEBUG MODE ON\n')]: the text handed to [print] ends in a
    newline of its own. *)
Definition set_debug : M unit :=
  fun s =>
    print (LText ("DEBUG MODE ON" ++ newline)%string) (set_debug_flag true s).

(** The body of the [for] loop of [print_commands]. *)
Definition print_command_at (data : bytes) (i : nat) : M unit :=
  x <- getitem data i ;;
  if (x =? IAC)%Z then
    code <- getitem data (i + 1) ;;
    let code := match_code code in
    val <- getitem data (i + 2) ;;
    match code with
    | Some name => print (LIac name val)
    | None => print LUnknownIac
    end
  else ret tt.

Definition print_commands (data : bytes) : M unit :=
  for_each (seq 0 (List.length data)) (print_command_at data).

Definition print_debug (host : string) (data : bytes) : M unit :=
  fun s =>
    if negb (debug s) then Ret tt s
    else (print (LDebug host data) ;;
          print_commands data ;;
          print LBlank) s.

Definition handle_command (code val : Z) : M bytes :=
  let resp := [IAC] in
  resp <- (if (code =? WILL)%Z then ret (resp ++ [DONT])
           else if (code =? DO)%Z then ret (resp ++ [WONT])
           else (print (LNoMethod code) ;; sys_exit 0%Z)) ;;
  let resp := resp ++ [val] in
  match bytes_of_ints resp with
  | Some b => ret b
  | None => raise ValueError
  end.

(** One turn of the [while] loop of [negotiate]; the result is the new
    value of [pos]. *)
Definition negotiate_body (data : bytes) (pos : nat) : M nat :=
  b <- getitem data pos ;;
  if negb (b =? IAC)%Z then ret (pos + 1)
  else
    code <- getitem data (pos + 1) ;;
    if (code =? IAC)%Z then ret (pos + 1)
    else
      val <- getitem data (pos + 2) ;;
      resp <- handle_command code val ;;
      s <- get_session ;;
      print_debug (client s) resp ;;
      send resp ;;
      ret (pos + 2).

Fixpoint negotiate_loop (fuel : nat) (data : bytes) (pos : nat) : M unit :=
  fun s =>
    if pos <? List.length data then
      match fuel with
      | O => OutOfFuel
      | S fuel' =>
          (pos' <- negotiate_body data pos ;;
           negotiate_loop fuel' data pos') s
      end
    else Ret tt s.

(** Every turn advances [pos], so [len(data)] turns are enough
    (see [negotiate_total]). *)
Definition negotiate (data : bytes) : M unit :=
  negotiate_loop (List.length data) data 0.

(** The result of [match_phrase] and [expect]: [(i, phrase)], or
    [(-1, None)]. *)
Definition match_result : Type := (Z * option bytes)%type.

Fixpoint match_phrase_from (i : Z) (phrases : list string) (data : bytes)
  : M match_result :=
  match phrases with
  | [] => ret ((-1)%Z, None)
  | phrase :: rest =>
      phrase <- encode phrase ;;
      if bytes_in phrase data then ret (i, Some phrase)
      else match_phrase_from (i + 1)%Z rest data
  end.

Definition match_phrase (phrases : list string) (data : bytes)
  : M match_result :=
  match_phrase_from 0%Z phrases data.

Definition no_negotiation : line :=
  LText "[-] Unable to complete negotiation process".

(** The [while True] loop of [read_until], [phrase] already converted. *)
Fixpoint read_until_loop (fuel : nat) (phrase : bytes) : M unit :=
  match fuel with
  | O => fun _ => OutOfFuel
  | S fuel' =>
      data <- recv ;;
      s <- get_session ;;
      print_debug (serv s) data ;;
      match data with
      | [] => print no_negotiation ;; sys_exit 1%Z
      | _ :: _ =>
          if bytes_in phrase data then ret tt
          else (negotiate data ;; read_until_loop fuel' phrase)
      end
  end.

(** A turn that does not leave the loop has taken a non-empty byte string
    from the peer, so one turn more than the peer has strings suffices
    (see [read_until_total]). *)
Definition read_until (phrase : string) : M unit :=
  phrase <- encode phrase ;;
  s <- get_session ;;
  read_until_loop (S (List.length (inbox s))) phrase.

Fixpoint expect_loop (fuel : nat) (phrases : list string) : M match_result :=
  match fuel with
  | O => fun _ => OutOfFuel
  | S fuel' =>
      data <- recv ;;
      s <- get_session ;;
      print_debug (serv s) data ;;
      match data with
      | [] => print no_negotiation ;; sys_exit 1%Z
      | _ :: _ =>
          result <- match_phrase phrases data ;;
          if negb (fst result =? -1)%Z then ret result
          else (negotiate data ;; expect_loop fuel' phrases)
      end
  end.

Definition expect (phrases : list string) : M match_result :=
  s <- get_session ;;
  expect_loop (S (List.length (inbox s))) phrases.

Definition expected : list string := ["ncorrect"%string] ++ chars prompts.

(** The last statement of [login]: the decision on the result of
    [expect]. *)
Definition login_decide (result : match_result) : M unit :=
  if (fst result >? 0)%Z then fun s => Ret tt (set_logged_in true s)
  else
    print (LText "[-] Unable to log in") ;;
    if (fst result =? 0)%Z
    then print (LText "    Incorrect username or password")
    else print (LText "    Unknown error").

(** [login] up to the call of [expect]. *)
Definition login_prompts (username password : string) : M unit :=
  username <- encode (username ++ newline) ;;
  read_until "ogin" ;;
  send username ;;
  s <- get_session ;;
  print_debug (client s) username ;;
  password <- encode (password ++ newline) ;;
  read_until "assword" ;;
  send password ;;
  s <- get_session ;;
  print_debug (client s) password.

Definition login (username password : string) : M unit :=
  login_prompts username password ;;
  result <- expect expected ;;
  login_decide result.

(** What a method hands back to its caller. *)
Inductive value : Type :=
| VNone
| VBytes (b : bytes).

(** [write] has no [return] statement: its value is [None]. *)
Definition write (cmd : string) : M value :=
  s <- get_session ;;
  if logged_in s then
    expect (chars prompts) ;;
    cmd <- encode (cmd ++ newline) ;;
    send cmd ;;
    s <- get_session ;;
    print_debug (client s) cmd ;;
    output <- recv ;;
    s <- get_session ;;
    print_debug (serv s) output ;;
    ret VNone
  else
    print (LUnableToWrite cmd) ;;
    print (LText "    You are not logged in") ;;
    ret VNone.

(** ** Sample sessions *)

(** A new connection, not logged in, talking to a peer with the given
    script. *)
Definition fresh (dbg : bool) (peer : list bytes) : session :=
  mkSession dbg false "10.0.0.2" "10.0.0.1" peer [] [].

(** The bytes literal [b'...'] of ASCII text. *)
Definition b (s : string) : bytes := list_byte_of_string s.

(** ** Vocabulary of the statements *)

(** [post P o]: the session in which an outcome leaves the program
    satisfies [P]. *)
Definition post {A} (P : session -> Prop) (o : outcome A) : Prop :=
  match o with
  | Ret _ s' | Exit _ s' | Raise _ s' => P s'
  | OutOfFuel => True
  end.

(** [keeps R m]: however [m] ends, it ends in a session related by [R] to
    the one it started in. *)
Definition keeps {A} (R : session -> session -> Prop) (m : M A) : Prop :=
  forall s, post (R s) (m s).

(** Nothing but [set_debug], [login] and [close] writes a flag or a host
    name. *)
Definition same_flags (s s' : session) : Prop :=
  debug s' = debug s /\ logged_in s' = logged_in s /\
  client s' = client s /\ serv s' = serv s.

(** Without a [recv], the peer's pending byte strings stay as they are and
    the traffic grows by sends only. *)
Definition same_conn (s s' : session) : Prop :=
  same_flags s s' /\ inbox s' = inbox s /\
  recvs_of (trace s') = recvs_of (trace s).

(** Printing changes neither the connection nor the traffic. *)
Definition only_prints (s s' : session) : Prop :=
  same_flags s s' /\ inbox s' = inbox s /\ trace s' = trace s.

(** The counter verb: DONT for WILL, WONT for DO. *)
Definition counter_verb (code : Z) : byte :=
  if (code =? WILL)%Z then xfe else xfc.

(** The ways in which a method can end. *)
Inductive ending : Type :=
| Returns
| Exits (status : Z)
| Raises (e : exn)
| Stuck.

Definition ending_of {A} (o : outcome A) : ending :=
  match o with
  | Ret _ _ => Returns
  | Exit c _ => Exits c
  | Raise e _ => Raises e
  | OutOfFuel => Stuck
  end.

(** [ends P m]: the way in which [m] ends always satisfies [P]. *)
Definition ends {A} (P : ending -> Prop) (m : M A) : Prop :=
  forall s, P (ending_of (m s)).

(** The loop bound of the model was not what ended the run. *)
Definition not_stuck (e : ending) : Prop := e <> Stuck.

(** The value a method returns, when it returns. *)
Definition returns {A} (Q : A -> Prop) (m : M A) : Prop :=
  forall s a s', m s = Ret a s' -> Q a.

(** All that the debug printer can do. *)
Definition returns_or_index_error (e : ending) : Prop :=
  e = Returns \/ e = Raises IndexError.

(** One turn of either loop up to the test for an empty byte string. *)
Definition receive : M bytes :=
  data <- recv ;;
  s <- get_session ;;
  print_debug (serv s) data ;;
  ret data.

(** The session after the fatal path of a read loop that has just received
    [b'']: the debug lines, if any, and the one message. *)
Definition after_close (s1 : session) : session :=
  log_line no_negotiation
    (if debug s1
     then log_line LBlank (log_line (LDebug (serv s1) []) s1)
     else s1).

(** The phrases that [match_phrase] passes over: they have a bytes form and
    it does not occur in the data. *)
Definition misses (data : bytes) (phrase : string) : bool :=
  match encode_ascii phrase with
  | Some ph => negb (bytes_in ph data)
  | None => false
  end.

(** ** Well-formed negotiation traffic

    What a peer sends when it keeps to three-byte requests: stretches of
    text without the escape byte, and requests IAC, WILL or DO, option id
    with an option id other than 255. *)
Inductive segment : Type :=
| Text (t : bytes)
| Request (verb opt : byte).

Definition render_segment (g : segment) : bytes :=
  match g with
  | Text t => t
  | Request verb opt => [xff; verb; opt]
  end.

Definition render (l : list segment) : bytes := flat_map render_segment l.

Definition is_IAC (x : byte) : bool := Byte.eqb x xff.

Definition well_formed (g : segment) : bool :=
  match g with
  | Text t => negb (existsb is_IAC t)
  | Request verb opt =>
      (Byte.eqb verb xfb || Byte.eqb verb xfd) && negb (is_IAC opt)
  end.

(** The answers the requests of the traffic call for, in order. *)
Fixpoint refusals (l : list segment) : list bytes :=
  match l with
  | [] => []
  | Text _ :: l' => refusals l'
  | Request verb opt :: l' =>
      [xff; counter_verb (int_of_byte verb); opt] :: refusals l'
  end.

(** A byte string of the form IAC, DONT or WONT, option id. *)
Definition is_refusal (r : bytes) : bool :=
  match r with
  | [i; v; _] => is_IAC i && (Byte.eqb v xfe || Byte.eqb v xfc)
  | _ => false
  end.

(** All that [negotiate] does to a session: it sends refusals. *)
Definition only_refuses (s s' : session) : Prop :=
  same_flags s s' /\ inbox s' = inbox s /\
  exists l, trace s' = trace s ++ map EvSend l /\
            forallb is_refusal l = true.

(** The ways in which [negotiate] can end. *)
Definition negotiate_ending (e : ending) : Prop :=
  e = Returns \/ e = Exits 0%Z \/ e = Raises IndexError.

(** The last two bytes of the data, or all of it when it is shorter. *)
Definition last_two (data : bytes) : bytes :=
  skipn (List.length data - 2) data.

(** A phrase that [bytes(phrase, 'ascii')] accepts. *)
Definition encodable (phrase : string) : bool :=
  match encode_ascii phrase with
  | Some _ => true
  | None => false
  end.

(** * Verification *)

Example commands_keys :
  (IAC, WILL, WONT, DO, DONT) = (255, 251, 252, 253, 254)%Z.
Proof. reflexivity. Qed.

(** ** Bytes and ints *)

Lemma IAC_eq : IAC = 255%Z.
Proof. reflexivity. Qed.

Lemma WILL_eq : WILL = 251%Z.
Proof. reflexivity. Qed.

Lemma DO_eq : DO = 253%Z.
Proof. reflexivity. Qed.

Lemma int_of_byte_range (x : byte) : (0 <= int_of_byte x < 256)%Z.
Proof.
  unfold int_of_byte. pose proof (Byte.to_N_bounded x). lia.
Qed.

Lemma byte_of_int_of_byte (x : byte) : byte_of_int (int_of_byte x) = Some x.
Proof.
  unfold byte_of_int. pose proof (int_of_byte_range x) as H.
  replace ((0 <=? int_of_byte x)%Z && (int_of_byte x <? 256)%Z) with true
    by (symmetry; apply andb_true_iff; split; [apply Z.leb_le | apply Z.ltb_lt]; lia).
  unfold int_of_byte. rewrite N2Z.id. apply Byte.of_to_N.
Qed.

Lemma int_of_byte_inj (x y : byte) : int_of_byte x = int_of_byte y -> x = y.
Proof.
  intros H. apply (f_equal byte_of_int) in H.
  rewrite !byte_of_int_of_byte in H. congruence.
Qed.

Lemma item_some (data : bytes) (i : nat) (z : Z) :
  item data i = Some z ->
  exists x, nth_error data i = Some x /\ z = int_of_byte x.
Proof.
  unfold item. destruct (nth_error data i) as [x|]; simpl; intros H;
    [injection H as <-; eauto | discriminate].
Qed.

Lemma item_in_range (data : bytes) (i : nat) :
  i < List.length data -> exists z, item data i = Some z.
Proof.
  intros H. unfold item.
  destruct (nth_error data i) as [x|] eqn:E; simpl; eauto.
  apply nth_error_None in E. lia.
Qed.

Lemma item_lt (data : bytes) (i : nat) (z : Z) :
  item data i = Some z -> i < List.length data.
Proof.
  intros H. apply item_some in H as (x & H & _).
  apply nth_error_Some. congruence.
Qed.

(** ** [handle_command] *)

Lemma handle_command_WILL (val : Z) (s : session) :
  handle_command WILL val s =
  match bytes_of_ints [IAC; DONT; val] with
  | Some r => Ret r s
  | None => Raise ValueError s
  end.
Proof.
  unfold handle_command, bind. change (WILL =? WILL)%Z with true.
  cbv beta iota. unfold ret at 1. simpl app.
  destruct (bytes_of_ints _); reflexivity.
Qed.

Lemma handle_command_DO (val : Z) (s : session) :
  handle_command DO val s =
  match bytes_of_ints [IAC; WONT; val] with
  | Some r => Ret r s
  | None => Raise ValueError s
  end.
Proof.
  unfold handle_command, bind. change (DO =? WILL)%Z with false.
  change (DO =? DO)%Z with true.
  cbv beta iota. unfold ret at 1. simpl app.
  destruct (bytes_of_ints _); reflexivity.
Qed.

Lemma handle_command_other (code val : Z) (s : session) :
  code <> WILL -> code <> DO ->
  handle_command code val s = Exit 0%Z (log_line (LNoMethod code) s).
Proof.
  intros HW HD. unfold handle_command, bind.
  apply Z.eqb_neq in HW, HD. rewrite HW, HD. reflexivity.
Qed.

Lemma response_bytes (v : Z) (opt x : byte) :
  byte_of_int v = Some x ->
  bytes_of_ints [IAC; v; int_of_byte opt] = Some [xff; x; opt].
Proof.
  intros H. simpl. rewrite H, byte_of_int_of_byte. reflexivity.
Qed.

(** C1. For either verb WILL or DO and every option-id byte,
    [handle_command] returns exactly three bytes: IAC, then DONT for WILL
    and WONT for DO, then the option id. The session is left as it was. *)
Theorem handle_command_will_do (opt : byte) (s : session) :
  handle_command WILL (int_of_byte opt) s = Ret [xff; xfe; opt] s /\
  handle_command DO (int_of_byte opt) s = Ret [xff; xfc; opt] s /\
  map int_of_byte [xff; xfe; opt] = [IAC; DONT; int_of_byte opt] /\
  map int_of_byte [xff; xfc; opt] = [IAC; WONT; int_of_byte opt].
Proof.
  repeat split.
  - rewrite handle_command_WILL, (response_bytes DONT opt xfe); reflexivity.
  - rewrite handle_command_DO, (response_bytes WONT opt xfc); reflexivity.
Qed.

(** ** What the methods leave alone

    [keeps R m] says that the session in which [m] ends, however it ends,
    is related by [R] to the one it started in. *)

Create HintDb keeps.

Section Frames.
Variable R : session -> session -> Prop.
Hypothesis R_refl : forall s, R s s.
Hypothesis R_trans : forall s1 s2 s3, R s1 s2 -> R s2 s3 -> R s1 s3.
Hypothesis R_line : forall l s, R s (log_line l s).
Hypothesis R_send : forall x s, R s (log_io (EvSend x) s).

Lemma keeps_ret {A} (a : A) : keeps R (ret a).
Proof. intros s. apply R_refl. Qed.

Lemma keeps_raise {A} (e : exn) : keeps R (@raise A e).
Proof. intros s. apply R_refl. Qed.

Lemma keeps_sys_exit {A} (c : Z) : keeps R (@sys_exit A c).
Proof. intros s. apply R_refl. Qed.

Lemma keeps_get_session : keeps R get_session.
Proof. intros s. apply R_refl. Qed.

Lemma keeps_bind {A B} (m : M A) (k : A -> M B) :
  keeps R m -> (forall a, keeps R (k a)) -> keeps R (bind m k).
Proof.
  intros Hm Hk s. unfold bind. specialize (Hm s).
  destruct (m s) as [a s1|c s1|e s1|]; simpl in *; trivial.
  specialize (Hk a s1). destruct (k a s1); simpl in *; eauto.
Qed.

Lemma keeps_print (l : line) : keeps R (print l).
Proof. intros s. apply R_line. Qed.

Lemma keeps_send (x : bytes) : keeps R (send x).
Proof. intros s. apply R_send. Qed.

Lemma keeps_getitem (data : bytes) (i : nat) : keeps R (getitem data i).
Proof.
  unfold getitem. destruct (item data i);
    [apply keeps_ret | apply keeps_raise].
Qed.

Lemma keeps_encode (x : string) : keeps R (encode x).
Proof.
  unfold encode. destruct (encode_ascii x);
    [apply keeps_ret | apply keeps_raise].
Qed.

Lemma keeps_for_each {A} (l : list A) (body : A -> M unit) :
  (forall a, keeps R (body a)) -> keeps R (for_each l body).
Proof.
  intros Hb. induction l as [|a l IH]; simpl.
  - apply keeps_ret.
  - apply keeps_bind; auto.
Qed.

#[local] Hint Resolve keeps_ret keeps_raise keeps_sys_exit keeps_get_session
  keeps_print keeps_send keeps_getitem keeps_encode : keeps.

Ltac keeps_step :=
  first [ apply keeps_bind; [ | intros ? ]
        | solve [ auto with keeps ] ].

Lemma keeps_print_commands (data : bytes) : keeps R (print_commands data).
Proof.
  unfold print_commands. apply keeps_for_each. intros i.
  unfold print_command_at.
  keeps_step; [keeps_step|]. destruct (a =? IAC)%Z; [|keeps_step].
  keeps_step; [keeps_step|]. keeps_step; [keeps_step|].
  destruct (match_code a0); keeps_step.
Qed.

Lemma keeps_print_debug (host : string) (data : bytes) :
  keeps R (print_debug host data).
Proof.
  intros s. unfold print_debug. destruct (debug s); simpl.
  - assert (H : keeps R (print (LDebug host data) ;;
                         print_commands data ;; print LBlank)).
    { keeps_step; [keeps_step|]. keeps_step; [|keeps_step].
      apply keeps_print_commands. }
    apply H.
  - apply R_refl.
Qed.

Lemma keeps_handle_command (code val : Z) :
  keeps R (handle_command code val).
Proof.
  unfold handle_command. keeps_step.
  - destruct (code =? WILL)%Z; [keeps_step|].
    destruct (code =? DO)%Z; [keeps_step|].
    keeps_step; keeps_step.
  - destruct (bytes_of_ints _); keeps_step.
Qed.

Lemma keeps_negotiate_body (data : bytes) (pos : nat) :
  keeps R (negotiate_body data pos).
Proof.
  unfold negotiate_body. keeps_step; [keeps_step|].
  destruct (negb _); [keeps_step|].
  keeps_step; [keeps_step|]. destruct (a0 =? IAC)%Z; [keeps_step|].
  keeps_step; [keeps_step|].
  keeps_step; [apply keeps_handle_command|].
  keeps_step; [keeps_step|].
  keeps_step; [apply keeps_print_debug|].
  keeps_step; keeps_step.
Qed.

Lemma keeps_negotiate_loop (fuel : nat) (data : bytes) :
  forall pos, keeps R (negotiate_loop fuel data pos).
Proof.
  induction fuel as [|fuel IH]; intros pos s; simpl;
    destruct (pos <? List.length data); simpl; trivial.
  apply (keeps_bind (negotiate_body data pos)
           (fun pos' => negotiate_loop fuel data pos')).
  - apply keeps_negotiate_body.
  - intros a. apply IH.
Qed.

Lemma keeps_negotiate (data : bytes) : keeps R (negotiate data).
Proof. apply keeps_negotiate_loop. Qed.

Lemma keeps_match_phrase_from (phrases : list string) (data : bytes) :
  forall i, keeps R (match_phrase_from i phrases data).
Proof.
  induction phrases as [|p rest IH]; intros i; simpl.
  - apply keeps_ret.
  - keeps_step; [keeps_step|]. destruct (bytes_in a data); [keeps_step|].
    apply IH.
Qed.

(** From here on [R] also has to allow a [recv]. *)
Hypothesis R_recv :
  forall x rest s, R s (log_io (EvRecv x) (set_inbox rest s)).
Hypothesis R_recv_closed : forall s, R s (log_io (EvRecv []) s).

Lemma keeps_recv : keeps R recv.
Proof.
  intros s. unfold recv. destruct (inbox s); simpl;
    [apply R_recv_closed | apply R_recv].
Qed.

Lemma keeps_read_until_loop (fuel : nat) (phrase : bytes) :
  keeps R (read_until_loop fuel phrase).
Proof.
  induction fuel as [|fuel IH]; simpl; [intros s; exact I|].
  keeps_step; [apply keeps_recv|].
  keeps_step; [keeps_step|].
  keeps_step; [apply keeps_print_debug|].
  destruct a as [|x data]; [keeps_step; keeps_step|].
  destruct (bytes_in phrase (x :: data)); [keeps_step|].
  keeps_step; [apply keeps_negotiate | apply IH].
Qed.

Lemma keeps_read_until (phrase : string) : keeps R (read_until phrase).
Proof.
  unfold read_until. keeps_step; [keeps_step|].
  keeps_step; [keeps_step|]. apply keeps_read_until_loop.
Qed.

Lemma keeps_expect_loop (fuel : nat) (phrases : list string) :
  keeps R (expect_loop fuel phrases).
Proof.
  induction fuel as [|fuel IH]; simpl; [intros s; exact I|].
  keeps_step; [apply keeps_recv|].
  keeps_step; [keeps_step|].
  keeps_step; [apply keeps_print_debug|].
  destruct a as [|x data]; [keeps_step; keeps_step|].
  keeps_step; [apply keeps_match_phrase_from|].
  destruct (negb _); [keeps_step|].
  keeps_step; [apply keeps_negotiate | apply IH].
Qed.

Lemma keeps_expect (phrases : list string) : keeps R (expect phrases).
Proof.
  unfold expect. keeps_step; [keeps_step|]. apply keeps_expect_loop.
Qed.

Lemma keeps_login_prompts (username password : string) :
  keeps R (login_prompts username password).
Proof.
  unfold login_prompts.
  keeps_step; [keeps_step|].
  keeps_step; [apply keeps_read_until|].
  keeps_step; [keeps_step|].
  keeps_step; [keeps_step|].
  keeps_step; [apply keeps_print_debug|].
  keeps_step; [keeps_step|].
  keeps_step; [apply keeps_read_until|].
  keeps_step; [keeps_step|].
  keeps_step; [keeps_step|].
  apply keeps_print_debug.
Qed.
End Frames.

Lemma same_flags_refl s : same_flags s s.
Proof. repeat split. Qed.

Lemma same_flags_trans s1 s2 s3 :
  same_flags s1 s2 -> same_flags s2 s3 -> same_flags s1 s3.
Proof. unfold same_flags. intuition congruence. Qed.

Lemma recvs_of_app t1 t2 : recvs_of (t1 ++ t2) = recvs_of t1 + recvs_of t2.
Proof.
  induction t1 as [|[x|x] t1 IH]; simpl; auto.
Qed.

Lemma sent_of_app t1 t2 : sent_of (t1 ++ t2) = sent_of t1 ++ sent_of t2.
Proof.
  induction t1 as [|[x|x] t1 IH]; simpl; auto. now rewrite IH.
Qed.

Lemma same_conn_refl s : same_conn s s.
Proof. repeat split. Qed.

Lemma same_conn_trans s1 s2 s3 :
  same_conn s1 s2 -> same_conn s2 s3 -> same_conn s1 s3.
Proof. unfold same_conn, same_flags. intuition congruence. Qed.

Lemma same_conn_send x s : same_conn s (log_io (EvSend x) s).
Proof.
  repeat split. simpl. rewrite recvs_of_app. simpl. lia.
Qed.

Lemma same_conn_line l s : same_conn s (log_line l s).
Proof. repeat split. Qed.

Lemma only_prints_refl s : only_prints s s.
Proof. repeat split. Qed.

Lemma only_prints_trans s1 s2 s3 :
  only_prints s1 s2 -> only_prints s2 s3 -> only_prints s1 s3.
Proof. unfold only_prints, same_flags. intuition congruence. Qed.

Lemma only_prints_line l s : only_prints s (log_line l s).
Proof. repeat split. Qed.

Lemma print_debug_only_prints (host : string) (data : bytes) :
  keeps only_prints (print_debug host data).
Proof.
  apply keeps_print_debug;
    first [ exact only_prints_refl | exact only_prints_trans
          | exact only_prints_line ].
Qed.

Lemma print_debug_off (host : string) (data : bytes) (s : session) :
  debug s = false -> print_debug host data s = Ret tt s.
Proof. intros H. unfold print_debug. rewrite H. reflexivity. Qed.

Lemma not_IAC (x : byte) : x <> xff -> (int_of_byte x =? IAC)%Z = false.
Proof.
  intros H. apply Z.eqb_neq. intros E. apply H.
  apply int_of_byte_inj. exact E.
Qed.

(** ** Running a method step by step *)

Lemma bind_Ret {A B} (m : M A) (k : A -> M B) (a : A) (s s' : session) :
  m s = Ret a s' -> bind m k s = k a s'.
Proof. intros H. unfold bind. rewrite H. reflexivity. Qed.

Lemma bind_Exit {A B} (m : M A) (k : A -> M B) (c : Z) (s s' : session) :
  m s = Exit c s' -> bind m k s = Exit c s'.
Proof. intros H. unfold bind. rewrite H. reflexivity. Qed.

Lemma bind_Raise {A B} (m : M A) (k : A -> M B) (e : exn) (s s' : session) :
  m s = Raise e s' -> bind m k s = Raise e s'.
Proof. intros H. unfold bind. rewrite H. reflexivity. Qed.

Ltac bind_ret E :=
  match type of E with
  | ?m ?s = Ret ?a ?s' => rewrite (@bind_Ret _ _ m _ a s s' E); cbv beta
  end.

Ltac bind_exit E :=
  match type of E with
  | ?m ?s = Exit ?c ?s' => rewrite (@bind_Exit _ _ m _ c s s' E)
  end.

Ltac bind_raise E :=
  match type of E with
  | ?m ?s = Raise ?e ?s' => rewrite (@bind_Raise _ _ m _ e s s' E)
  end.

Lemma getitem_Ret (data : bytes) (i : nat) {z : Z} (s : session) :
  item data i = Some z -> getitem data i s = Ret z s.
Proof. intros H. unfold getitem. rewrite H. reflexivity. Qed.

Lemma getitem_Raise (data : bytes) (i : nat) (s : session) :
  item data i = None -> getitem data i s = Raise IndexError s.
Proof. intros H. unfold getitem. rewrite H. reflexivity. Qed.

(** ** [print_commands] and [print_debug] *)

Lemma print_command_at_skip (data : bytes) (i : nat) {z : Z} (s : session) :
  item data i = Some z -> z <> IAC -> print_command_at data i s = Ret tt s.
Proof.
  intros H Hz. unfold print_command_at.
  bind_ret (getitem_Ret data i s H).
  apply Z.eqb_neq in Hz. rewrite Hz. reflexivity.
Qed.

Lemma print_command_at_IAC (data : bytes) (i : nat) {c v : Z} (s : session) :
  item data i = Some IAC ->
  item data (i + 1) = Some c ->
  item data (i + 2) = Some v ->
  print_command_at data i s =
  Ret tt (log_line (match match_code c with
                    | Some name => LIac name v
                    | None => LUnknownIac
                    end) s).
Proof.
  intros H0 H1 H2. unfold print_command_at.
  bind_ret (getitem_Ret data i s H0).
  rewrite Z.eqb_refl.
  bind_ret (getitem_Ret data (i + 1) s H1). cbv zeta.
  bind_ret (getitem_Ret data (i + 2) s H2).
  destruct (match_code c); reflexivity.
Qed.

Lemma item_not_IAC (data : bytes) (i : nat) :
  Forall (fun x => x <> xff) data -> i < List.length data ->
  exists z, item data i = Some z /\ z <> IAC.
Proof.
  intros Hd Hi. destruct (item_in_range data i Hi) as [z Hz].
  exists z. split; trivial.
  destruct (item_some _ _ _ Hz) as (x & Hx & ->).
  rewrite Forall_forall in Hd. apply nth_error_In in Hx. apply Hd in Hx.
  apply Z.eqb_neq. apply not_IAC. exact Hx.
Qed.

Lemma for_each_no_IAC (data : bytes) (l : list nat) :
  Forall (fun x => x <> xff) data ->
  Forall (fun i => i < List.length data) l ->
  forall s, for_each l (print_command_at data) s = Ret tt s.
Proof.
  intros Hd Hl. induction Hl as [|i l Hi Hl IH]; intros s; simpl.
  - reflexivity.
  - destruct (item_not_IAC data i Hd Hi) as (z & Hz & Hn).
    bind_ret (print_command_at_skip data i s Hz Hn).
    apply IH.
Qed.

Lemma print_commands_no_IAC (data : bytes) (s : session) :
  Forall (fun x => x <> xff) data -> print_commands data s = Ret tt s.
Proof.
  intros H. unfold print_commands. apply for_each_no_IAC; trivial.
  apply Forall_forall. intros i Hi. apply in_seq in Hi. lia.
Qed.

Lemma print_debug_no_IAC (host : string) (data : bytes) (s : session) :
  Forall (fun x => x <> xff) data ->
  print_debug host data s =
  Ret tt (if debug s
          then log_line LBlank (log_line (LDebug host data) s)
          else s).
Proof.
  intros H. unfold print_debug. destruct (debug s); simpl; trivial.
  unfold bind, print. rewrite print_commands_no_IAC by trivial.
  reflexivity.
Qed.

(** The debug print of a three-byte response fails only on an option id
    255, which it takes for the start of one more command. *)
Lemma print_commands_response (x opt : byte) (s : session) :
  x <> xff -> opt <> xff ->
  exists l, print_commands [xff; x; opt] s = Ret tt (log_line l s).
Proof.
  intros Hx Ho. unfold print_commands. simpl for_each.
  eexists.
  pose proof (proj1 (Z.eqb_neq _ _) (not_IAC x Hx)) as Nx.
  pose proof (proj1 (Z.eqb_neq _ _) (not_IAC opt Ho)) as No.
  bind_ret (print_command_at_IAC [xff; x; opt] 0 s
              eq_refl eq_refl eq_refl).
  match goal with |- context [log_line ?l s] => set (s1 := log_line l s) end.
  bind_ret (print_command_at_skip [xff; x; opt] 1 s1 eq_refl Nx).
  bind_ret (print_command_at_skip [xff; x; opt] 2 s1 eq_refl No).
  reflexivity.
Qed.

Lemma print_debug_response (host : string) (x opt : byte) (s : session) :
  x <> xff -> debug s = false \/ opt <> xff ->
  exists s', print_debug host [xff; x; opt] s = Ret tt s' /\
             only_prints s s'.
Proof.
  intros Hx H.
  pose proof (print_debug_only_prints host [xff; x; opt] s) as Hk.
  destruct (debug s) eqn:D.
  - destruct H as [H|H]; [discriminate|].
    destruct (print_commands_response x opt
                (log_line (LDebug host [xff; x; opt]) s) Hx H) as [l Hl].
    assert (E : print_debug host [xff; x; opt] s =
                Ret tt (log_line LBlank
                          (log_line l
                             (log_line (LDebug host [xff; x; opt]) s)))).
    { unfold print_debug. rewrite D. simpl negb. cbv iota.
      unfold bind at 1. unfold print at 1. bind_ret Hl. reflexivity. }
    eexists. split; [exact E|]. rewrite E in Hk. exact Hk.
  - exists s. rewrite print_debug_off by trivial.
    split; [reflexivity | apply only_prints_refl].
Qed.

(** ** [negotiate] *)

Lemma negotiate_loop_S (fuel : nat) (data : bytes) (pos : nat) (s : session) :
  pos < List.length data ->
  negotiate_loop (S fuel) data pos s =
  (pos' <- negotiate_body data pos ;; negotiate_loop fuel data pos') s.
Proof.
  intros H. simpl. apply Nat.ltb_lt in H. rewrite H. reflexivity.
Qed.

Lemma negotiate_loop_done (fuel : nat) (data : bytes) (pos : nat) (s : session) :
  List.length data <= pos -> negotiate_loop fuel data pos s = Ret tt s.
Proof.
  intros H. apply Nat.ltb_ge in H. destruct fuel; simpl; rewrite H; reflexivity.
Qed.

(** An ordinary byte: move on by one. *)
Lemma negotiate_body_plain (data : bytes) (pos : nat) (z : Z) (s : session) :
  item data pos = Some z -> z <> IAC ->
  negotiate_body data pos s = Ret (pos + 1) s.
Proof.
  intros H Hz. unfold negotiate_body.
  bind_ret (getitem_Ret data pos s H).
  apply Z.eqb_neq in Hz. rewrite Hz. reflexivity.
Qed.

(** IAC followed by a verb and an option id: the response is built,
    shown to the debug printer and sent. *)
Lemma negotiate_body_command (data : bytes) (pos : nat) (code val : Z)
    (s : session) :
  item data pos = Some IAC ->
  item data (pos + 1) = Some code -> code <> IAC ->
  item data (pos + 2) = Some val ->
  negotiate_body data pos s =
  (resp <- handle_command code val ;;
   s0 <- get_session ;;
   print_debug (client s0) resp ;;
   send resp ;;
   ret (pos + 2)) s.
Proof.
  intros H0 H1 Hc H2. unfold negotiate_body.
  bind_ret (getitem_Ret data pos s H0).
  rewrite Z.eqb_refl. cbn [negb].
  bind_ret (getitem_Ret data (pos + 1) s H1).
  apply Z.eqb_neq in Hc. rewrite Hc.
  bind_ret (getitem_Ret data (pos + 2) s H2).
  reflexivity.
Qed.

(** IAC at the last or last but one index: reading the verb or the option
    id runs off the end of the data. *)
Lemma negotiate_body_no_verb (data : bytes) (pos : nat) (s : session) :
  item data pos = Some IAC -> item data (pos + 1) = None ->
  negotiate_body data pos s = Raise IndexError s.
Proof.
  intros H0 H1. unfold negotiate_body.
  bind_ret (getitem_Ret data pos s H0).
  rewrite Z.eqb_refl. cbn [negb].
  bind_raise (getitem_Raise data (pos + 1) s H1). reflexivity.
Qed.

Lemma negotiate_body_no_option (data : bytes) (pos : nat) (code : Z)
    (s : session) :
  item data pos = Some IAC ->
  item data (pos + 1) = Some code -> code <> IAC ->
  item data (pos + 2) = None ->
  negotiate_body data pos s = Raise IndexError s.
Proof.
  intros H0 H1 Hc H2. unfold negotiate_body.
  bind_ret (getitem_Ret data pos s H0).
  rewrite Z.eqb_refl. cbn [negb].
  bind_ret (getitem_Ret data (pos + 1) s H1).
  apply Z.eqb_neq in Hc. rewrite Hc.
  bind_raise (getitem_Raise data (pos + 2) s H2). reflexivity.
Qed.

Lemma handle_command_answer (code : Z) (opt : byte) (s : session) :
  code = WILL \/ code = DO ->
  handle_command code (int_of_byte opt) s =
  Ret [xff; counter_verb code; opt] s.
Proof.
  intros [-> | ->].
  - rewrite handle_command_WILL, (response_bytes DONT opt xfe); reflexivity.
  - rewrite handle_command_DO, (response_bytes WONT opt xfc); reflexivity.
Qed.

(** An answered command: the turn ends at [pos + 2] once the debug print
    of the response is through. *)
Lemma negotiate_body_answer (data : bytes) (pos : nat) (verb : Z) (opt : byte)
    (s : session) :
  item data pos = Some IAC ->
  item data (pos + 1) = Some verb -> verb = WILL \/ verb = DO ->
  item data (pos + 2) = Some (int_of_byte opt) ->
  negotiate_body data pos s =
  (print_debug (client s) [xff; counter_verb verb; opt] ;;
   send [xff; counter_verb verb; opt] ;;
   ret (pos + 2)) s.
Proof.
  intros H0 H1 Hv H2.
  rewrite (negotiate_body_command data pos verb (int_of_byte opt) s); trivial.
  - bind_ret (handle_command_answer verb opt s Hv).
    unfold bind at 1. unfold get_session at 1. reflexivity.
  - destruct Hv as [-> | ->]; discriminate.
Qed.

(** IAC twice in a row: nothing is sent, move on by one. *)
Lemma negotiate_body_doubled (data : bytes) (pos : nat) (s : session) :
  item data pos = Some IAC -> item data (pos + 1) = Some IAC ->
  negotiate_body data pos s = Ret (pos + 1) s.
Proof.
  intros H0 H1. unfold negotiate_body.
  bind_ret (getitem_Ret data pos s H0).
  rewrite Z.eqb_refl. cbn [negb].
  bind_ret (getitem_Ret data (pos + 1) s H1).
  rewrite Z.eqb_refl. reflexivity.
Qed.

(** C10. When the byte after an IAC is IAC again, the turn sends nothing
    and ends normally with the session untouched, and the scan goes on one
    byte further, at the second IAC. *)
Theorem negotiate_doubled_IAC (data : bytes) (p : nat) (s : session) :
  item data p = Some IAC ->
  item data (p + 1) = Some IAC ->
  negotiate_body data p s = Ret (p + 1) s /\
  forall fuel,
    negotiate_loop (S (S fuel)) data p s =
    (pos' <- negotiate_body data (p + 1) ;; negotiate_loop fuel data pos') s.
Proof.
  intros H0 H1.
  pose proof (negotiate_body_doubled data p s H0 H1) as E.
  split; trivial. intros fuel.
  rewrite negotiate_loop_S by (apply (item_lt _ _ _ H0)).
  bind_ret E. apply negotiate_loop_S. apply (item_lt _ _ _ H1).
Qed.

Lemma negotiate_doubled_IAC_witness :
  let data := [xff; xff; xfb; x01] in
  let s := fresh false [] in
  negotiate_body data 0 s = Ret (0 + 1) s /\
  forall fuel,
    negotiate_loop (S (S fuel)) data 0 s =
    (pos' <- negotiate_body data (0 + 1) ;; negotiate_loop fuel data pos') s.
Proof.
  apply (negotiate_doubled_IAC [xff; xff; xfb; x01] 0 (fresh false []));
    reflexivity.
Defined.

(** ** How a method can end

    [ends P m]: the way [m] ends (normal return, exit status, exception,
    loop bound) always satisfies [P]. *)

Create HintDb ends.

Section Endings.
Variable P : ending -> Prop.
Hypothesis P_returns : P Returns.
Hypothesis P_index : P (Raises IndexError).
Hypothesis P_value : P (Raises ValueError).
Hypothesis P_unicode : P (Raises UnicodeEncodeError).
Hypothesis P_exit : forall c, P (Exits c).

Lemma ends_ret {A} (a : A) : ends P (ret a).
Proof. intros s. exact P_returns. Qed.

Lemma ends_bind {A B} (m : M A) (k : A -> M B) :
  ends P m -> (forall a, ends P (k a)) -> ends P (bind m k).
Proof.
  intros Hm Hk s. unfold bind. specialize (Hm s).
  destruct (m s) as [a s1|c s1|e s1|]; simpl in *; trivial.
  apply Hk.
Qed.

Lemma ends_print (l : line) : ends P (print l).
Proof. intros s. exact P_returns. Qed.

Lemma ends_send (x : bytes) : ends P (send x).
Proof. intros s. exact P_returns. Qed.

Lemma ends_recv : ends P recv.
Proof. intros s. unfold recv. destruct (inbox s); exact P_returns. Qed.

Lemma ends_get_session : ends P get_session.
Proof. intros s. exact P_returns. Qed.

Lemma ends_getitem (data : bytes) (i : nat) : ends P (getitem data i).
Proof.
  intros s. unfold getitem. destruct (item data i);
    [exact P_returns | exact P_index].
Qed.

Lemma ends_encode (x : string) : ends P (encode x).
Proof.
  intros s. unfold encode. destruct (encode_ascii x);
    [exact P_returns | exact P_unicode].
Qed.

Lemma ends_for_each {A} (l : list A) (body : A -> M unit) :
  (forall a, ends P (body a)) -> ends P (for_each l body).
Proof.
  intros Hb. induction l as [|a l IH]; simpl.
  - apply ends_ret.
  - apply ends_bind; auto.
Qed.

Lemma ends_print_command_at (data : bytes) (i : nat) :
  ends P (print_command_at data i).
Proof.
  unfold print_command_at.
  apply ends_bind; [apply ends_getitem | intros x].
  destruct (x =? IAC)%Z; [|apply ends_ret].
  apply ends_bind; [apply ends_getitem | intros code].
  apply ends_bind; [apply ends_getitem | intros val].
  destruct (match_code code); apply ends_print.
Qed.

Lemma ends_print_debug (host : string) (data : bytes) :
  ends P (print_debug host data).
Proof.
  intros s. unfold print_debug. destruct (debug s); simpl;
    [|exact P_returns].
  apply (ends_bind (print (LDebug host data))
           (fun _ => print_commands data ;; print LBlank));
    [apply ends_print | intros _].
  apply ends_bind; [|intros _; apply ends_print].
  apply ends_for_each. intros i. apply ends_print_command_at.
Qed.

Lemma ends_handle_command (code val : Z) : ends P (handle_command code val).
Proof.
  unfold handle_command. apply ends_bind.
  - destruct (code =? WILL)%Z; [apply ends_ret|].
    destruct (code =? DO)%Z; [apply ends_ret|].
    apply ends_bind; [apply ends_print | intros _ s; apply P_exit].
  - intros resp. destruct (bytes_of_ints _);
      [apply ends_ret | intros s; exact P_value].
Qed.

Lemma ends_negotiate_body (data : bytes) (pos : nat) :
  ends P (negotiate_body data pos).
Proof.
  unfold negotiate_body.
  apply ends_bind; [apply ends_getitem | intros x].
  destruct (negb _); [apply ends_ret|].
  apply ends_bind; [apply ends_getitem | intros code].
  destruct (code =? IAC)%Z; [apply ends_ret|].
  apply ends_bind; [apply ends_getitem | intros val].
  apply ends_bind; [apply ends_handle_command | intros resp].
  apply ends_bind; [apply ends_get_session | intros s0].
  apply ends_bind; [apply ends_print_debug | intros _].
  apply ends_bind; [apply ends_send | intros _]. apply ends_ret.
Qed.

Lemma ends_match_phrase_from (phrases : list string) (data : bytes) :
  forall i, ends P (match_phrase_from i phrases data).
Proof.
  induction phrases as [|p rest IH]; intros i; simpl.
  - apply ends_ret.
  - apply ends_bind; [apply ends_encode | intros x].
    destruct (bytes_in x data); [apply ends_ret | apply IH].
Qed.
End Endings.

(** ** The loops of the model are long enough *)

Ltac not_stuck := unfold not_stuck; intros; discriminate.

Lemma returns_ret {A} (Q : A -> Prop) (a : A) : Q a -> returns Q (ret a).
Proof. intros H s a' s' E. injection E as <- _. exact H. Qed.

Lemma returns_bind {A B} (Q : B -> Prop) (m : M A) (k : A -> M B) :
  (forall a, returns Q (k a)) -> returns Q (bind m k).
Proof.
  intros Hk s v s' E. unfold bind in E.
  destruct (m s) as [a s1|c s1|e s1|]; try discriminate.
  exact (Hk a s1 v s' E).
Qed.

Lemma negotiate_body_advances (data : bytes) (pos : nat) :
  returns (fun pos' => pos < pos') (negotiate_body data pos).
Proof.
  unfold negotiate_body.
  apply returns_bind; intros x.
  destruct (negb _); [apply returns_ret; lia|].
  apply returns_bind; intros code.
  destruct (code =? IAC)%Z; [apply returns_ret; lia|].
  do 5 (apply returns_bind; intros ?). apply returns_ret. lia.
Qed.

Lemma negotiate_loop_total (data : bytes) :
  forall fuel pos s,
    List.length data <= pos + fuel ->
    negotiate_loop fuel data pos s <> OutOfFuel.
Proof.
  induction fuel as [|fuel IH]; intros pos s H.
  - rewrite negotiate_loop_done by lia. discriminate.
  - destruct (Nat.lt_ge_cases pos (List.length data)) as [Hlt|Hge].
    + rewrite negotiate_loop_S by trivial. unfold bind.
      assert (Hb : ends not_stuck (negotiate_body data pos))
        by (apply ends_negotiate_body; not_stuck).
      specialize (Hb s).
      pose proof (negotiate_body_advances data pos s) as Ha.
      destruct (negotiate_body data pos s) as [n s1|c s1|e s1|];
        try discriminate.
      * apply IH. specialize (Ha n s1 eq_refl). lia.
      * exfalso. apply Hb. reflexivity.
    + rewrite negotiate_loop_done by lia. discriminate.
Qed.

(** [negotiate] always comes to an end: it returns, exits or raises. *)
Lemma negotiate_total (data : bytes) : ends not_stuck (negotiate data).
Proof.
  intros s E. unfold negotiate in E.
  apply (negotiate_loop_total data (List.length data) 0 s); [lia|].
  destruct (negotiate_loop _ _ _ _); try discriminate. reflexivity.
Qed.

(** ** Verbs without a handler *)

(** The debug printer either gets through, having printed only, or runs
    off the end of the data. *)
Lemma print_debug_cases (host : string) (data : bytes) (s : session) :
  (exists s', print_debug host data s = Ret tt s' /\ only_prints s s') \/
  (debug s = true /\
   exists s', print_debug host data s = Raise IndexError s').
Proof.
  assert (He : ends returns_or_index_error (print_debug host data))
    by (apply ends_print_debug; [left | right]; reflexivity).
  specialize (He s).
  pose proof (print_debug_only_prints host data s) as Hk.
  destruct (debug s) eqn:D.
  - destruct (print_debug host data s) as [[] s1|c s1|e s1|]; simpl in *.
    + left. eauto.
    + destruct He; discriminate.
    + right. split; trivial. exists s1.
      destruct He as [He|He]; [discriminate | injection He as ->].
      reflexivity.
    + destruct He; discriminate.
  - left. exists s. rewrite print_debug_off by trivial.
    split; [reflexivity | apply only_prints_refl].
Qed.

(** An answered command, whatever the debug flag. *)
Lemma negotiate_body_answer_cases (data : bytes) (pos : nat) (verb : Z)
    (opt : byte) (s : session) :
  item data pos = Some IAC ->
  item data (pos + 1) = Some verb -> verb = WILL \/ verb = DO ->
  item data (pos + 2) = Some (int_of_byte opt) ->
  (exists s1,
     negotiate_body data pos s =
     Ret (pos + 2) (log_io (EvSend [xff; counter_verb verb; opt]) s1) /\
     only_prints s s1) \/
  (debug s = true /\
   exists s1, negotiate_body data pos s = Raise IndexError s1).
Proof.
  intros H0 H1 Hv H2.
  pose proof (negotiate_body_answer data pos verb opt s H0 H1 Hv H2) as Hb.
  destruct (print_debug_cases (client s) [xff; counter_verb verb; opt] s)
    as [(s1 & E1 & F1)|(D & s1 & E1)].
  - left. exists s1. split; trivial.
    rewrite Hb. bind_ret E1. reflexivity.
  - right. split; trivial. exists s1.
    rewrite Hb. bind_raise E1. reflexivity.
Qed.

(** C4. After one control sequence IAC, verb (WILL or DO), option id at
    index [p] has been processed, the scan goes on at [p + 2], not at
    [p + 3]: whenever the turn at [p] completes, it has sent exactly the
    one response and the new index is [p + 2], so that the next turn of
    the loop examines the option-id byte like any other byte of the data.
    The turn does complete unless the debug printer is on and stumbles
    over an option id 255. *)
Theorem negotiate_resumes_at_option_id (data : bytes) (p : nat) (verb : Z)
    (opt : byte) (s : session) :
  item data p = Some IAC ->
  item data (p + 1) = Some verb -> verb = WILL \/ verb = DO ->
  nth_error data (p + 2) = Some opt ->
  (forall pos' s',
     negotiate_body data p s = Ret pos' s' ->
     pos' = p + 2 /\
     trace s' = trace s ++ [EvSend [xff; counter_verb verb; opt]] /\
     forall fuel,
       negotiate_loop (S (S fuel)) data p s =
       (pos'' <- negotiate_body data (p + 2) ;;
        negotiate_loop fuel data pos'') s') /\
  (debug s = false \/ opt <> xff ->
   exists s', negotiate_body data p s = Ret (p + 2) s' /\
              inbox s' = inbox s /\ same_flags s s').
Proof.
  intros H0 H1 Hv H2.
  assert (H2' : item data (p + 2) = Some (int_of_byte opt))
    by (unfold item; rewrite H2; reflexivity).
  set (resp := [xff; counter_verb verb; opt]).
  split.
  - intros pos' s' E.
    destruct (negotiate_body_answer_cases data p verb opt s H0 H1 Hv H2')
      as [(s1 & E1 & (_ & _ & T1))|(_ & s1 & E1)];
      [|rewrite E1 in E; discriminate].
    rewrite E1 in E. injection E as <- <-.
    split; [reflexivity|]. split.
    + simpl. rewrite T1. reflexivity.
    + intros fuel.
      rewrite negotiate_loop_S by (apply (item_lt _ _ _ H0)).
      bind_ret E1.
      apply negotiate_loop_S. apply (item_lt _ _ _ H2').
  - intros Hd.
    assert (Hx : counter_verb verb <> xff)
      by (destruct Hv as [-> | ->]; discriminate).
    destruct (print_debug_response (client s) (counter_verb verb) opt s
                Hx Hd) as (s1 & E1 & (F1 & I1 & T1)).
    exists (log_io (EvSend resp) s1). split; [|split].
    + rewrite (negotiate_body_answer data p verb opt s); trivial.
      fold resp. bind_ret E1. reflexivity.
    + exact I1.
    + exact F1.
Qed.

Lemma negotiate_resumes_at_option_id_witness :
  let data := [xff; xfb; x01; x41] in
  let s := fresh true [] in
  (forall pos' s',
     negotiate_body data 0 s = Ret pos' s' ->
     pos' = 0 + 2 /\
     trace s' = trace s ++ [EvSend [xff; counter_verb WILL; x01]] /\
     forall fuel,
       negotiate_loop (S (S fuel)) data 0 s =
       (pos'' <- negotiate_body data (0 + 2) ;;
        negotiate_loop fuel data pos'') s') /\
  (debug s = false \/ x01 <> xff ->
   exists s', negotiate_body data 0 s = Ret (0 + 2) s' /\
              inbox s' = inbox s /\ same_flags s s').
Proof.
  apply (negotiate_resumes_at_option_id [xff; xfb; x01; x41] 0 WILL x01
           (fresh true [])).
  - reflexivity.
  - reflexivity.
  - left. reflexivity.
  - reflexivity.
Defined.

(** With an option id 255 the re-examined byte starts a command of its own:
    two responses leave for what the peer sent as one command and a half. *)
Example negotiate_option_id_255 :
  negotiate [xff; xfb; xff; xfd; x01] (fresh false []) =
  Ret tt (log_io (EvSend [xff; xfc; x01])
            (log_io (EvSend [xff; xfe; xff]) (fresh false []))).
Proof. reflexivity. Qed.

Section Unhandled.
Variables (data : bytes) (p : nat) (verb opt : Z).
Hypothesis at_p : item data p = Some IAC.
Hypothesis verb_p : item data (p + 1) = Some verb.
Hypothesis not_will : verb <> WILL.
Hypothesis not_do : verb <> DO.
Hypothesis not_iac : verb <> IAC.
Hypothesis opt_p : item data (p + 2) = Some opt.

Lemma negotiate_body_unhandled (s : session) :
  negotiate_body data p s = Exit 0%Z (log_line (LNoMethod verb) s).
Proof.
  rewrite (negotiate_body_command data p verb opt s); trivial.
  bind_exit (handle_command_other verb opt s not_will not_do).
  reflexivity.
Qed.

Lemma negotiate_loop_unhandled (fuel : nat) (s : session) :
  negotiate_loop (S fuel) data p s =
  Exit 0%Z (log_line (LNoMethod verb) s).
Proof.
  rewrite negotiate_loop_S by (apply (item_lt _ _ _ at_p)).
  bind_exit (negotiate_body_unhandled s). reflexivity.
Qed.

(** From any index up to [p] the scan arrives at [p] or ends before:
    it never returns. *)
Lemma negotiate_loop_reaches_unhandled :
  forall fuel pos s,
    pos <= p -> List.length data <= pos + fuel ->
    (exists s', negotiate_loop fuel data pos s = Exit 0%Z s') \/
    (debug s = true /\
     exists s', negotiate_loop fuel data pos s = Raise IndexError s').
Proof.
  pose proof (item_lt _ _ _ opt_p) as Hlen.
  induction fuel as [|fuel IH]; intros pos s Hle Hfuel; [lia|].
  destruct (Nat.eq_dec pos p) as [->|Hne].
  { left. eexists. apply negotiate_loop_unhandled. }
  rewrite negotiate_loop_S by lia.
  destruct (item_in_range data pos ltac:(lia)) as [z Hz].
  destruct (Z.eq_dec z IAC) as [->|Hz'].
  2:{ bind_ret (negotiate_body_plain data pos z s Hz Hz').
      apply IH; lia. }
  destruct (item_in_range data (pos + 1) ltac:(lia)) as [c Hc].
  destruct (Z.eq_dec c IAC) as [->|Hc'].
  { bind_ret (negotiate_body_doubled data pos s Hz Hc). apply IH; lia. }
  assert (Hp : pos + 2 <= p).
  { destruct (Nat.eq_dec (pos + 1) p) as [E|E]; [|lia].
    rewrite E in Hc. congruence. }
  destruct (item_in_range data (pos + 2) ltac:(lia)) as [v Hv].
  assert (Eo : c <> WILL -> c <> DO ->
               negotiate_body data pos s =
               Exit 0%Z (log_line (LNoMethod c) s)).
  { intros Hw Hd. rewrite (negotiate_body_command data pos c v s); trivial.
    bind_exit (handle_command_other c v s Hw Hd). reflexivity. }
  destruct (Z.eq_dec c WILL) as [Hw|Hw];
    [|destruct (Z.eq_dec c DO) as [Hd|Hd]];
    [| |left; eexists; bind_exit (Eo Hw Hd); reflexivity].
  all: destruct (item_some _ _ _ Hv) as (o & _ & ->).
  all: destruct (negotiate_body_answer_cases data pos c o s Hz Hc
                   ltac:(tauto) Hv)
      as [(s1 & E1 & (F1 & _))|(D & s1 & E1)];
    [|right; split; trivial; exists s1; bind_raise E1; reflexivity].
  all: bind_ret E1.
  all: destruct (IH (pos + 2)
                   (log_io (EvSend [xff; counter_verb c; o]) s1)
                   ltac:(lia) ltac:(lia)) as [L|(D & R)];
    [left; exact L | right; split; [|exact R]].
  all: simpl in D; destruct F1 as (F1 & _); congruence.
Qed.
End Unhandled.

(** C3, as stated, fails: the byte after the IAC at index 0 is 255, a verb
    of the table other than WILL and DO, and [negotiate] skips the first
    IAC, answers the WILL that follows and returns. *)
Lemma negotiate_IAC_IAC_returns :
  let data := [xff; xff; xfb; x01] in
  let s := fresh false [] in
  item data 0 = Some IAC /\
  item data 1 = Some 255%Z /\ 255%Z <> WILL /\ 255%Z <> DO /\
  negotiate data s = Ret tt (log_io (EvSend [xff; xfe; x01]) s) /\
  ~ (exists c s', negotiate data s = Exit c s').
Proof.
  cbv zeta. repeat split; try discriminate.
  intros (c & s' & H). discriminate H.
Qed.

(** C3, amended. When the scan finds IAC at an index [p], followed by a
    verb other than WILL, DO and IAC and by an option-id byte, the turn at
    [p] prints that there is no method for the verb and ends the process
    with [sys.exit()], sending nothing. A scan of such data from its start
    never returns: it exits there or at an earlier such place, or else the
    debug printer has raised IndexError on the way. *)
Theorem negotiate_unhandled_verb (data : bytes) (p : nat) (verb opt : Z) :
  item data p = Some IAC ->
  item data (p + 1) = Some verb ->
  verb <> WILL -> verb <> DO -> verb <> IAC ->
  item data (p + 2) = Some opt ->
  (forall fuel s,
     negotiate_loop (S fuel) data p s =
     Exit 0%Z (log_line (LNoMethod verb) s)) /\
  (forall s,
     (exists s', negotiate data s = Exit 0%Z s') \/
     (debug s = true /\ exists s', negotiate data s = Raise IndexError s')) /\
  (forall s, debug s = false -> exists s', negotiate data s = Exit 0%Z s').
Proof.
  intros H0 H1 Hw Hd Hi H2.
  assert (Hall : forall s,
    (exists s', negotiate data s = Exit 0%Z s') \/
    (debug s = true /\ exists s', negotiate data s = Raise IndexError s')).
  { intros s. unfold negotiate.
    apply (negotiate_loop_reaches_unhandled data p verb opt); trivial; lia. }
  split; [|split].
  - intros fuel s.
    apply (negotiate_loop_unhandled data p verb opt); trivial.
  - exact Hall.
  - intros s D. destruct (Hall s) as [H|(D' & _)]; [exact H | congruence].
Qed.

Lemma negotiate_unhandled_verb_witness :
  let data := [x41; xff; xfc; x01] in
  (forall fuel s,
     negotiate_loop (S fuel) data 1 s =
     Exit 0%Z (log_line (LNoMethod 252) s)) /\
  (forall s,
     (exists s', negotiate data s = Exit 0%Z s') \/
     (debug s = true /\ exists s', negotiate data s = Raise IndexError s')) /\
  (forall s, debug s = false -> exists s', negotiate data s = Exit 0%Z s').
Proof.
  apply (negotiate_unhandled_verb [x41; xff; xfc; x01] 1 252 1);
    first [reflexivity | discriminate].
Defined.

(** ** Reading from the peer *)

Lemma bind_Ret_inv {A B} (m : M A) (k : A -> M B) (s s2 : session) (v : B) :
  bind m k s = Ret v s2 ->
  exists a s1, m s = Ret a s1 /\ k a s1 = Ret v s2.
Proof.
  unfold bind. destruct (m s) as [a s1|c s1|e s1|]; try discriminate.
  eauto.
Qed.

Lemma keeps_Ret {A} (R : session -> session -> Prop) (m : M A)
    (s s' : session) (a : A) :
  keeps R m -> m s = Ret a s' -> R s s'.
Proof. intros H E. specialize (H s). rewrite E in H. exact H. Qed.

Lemma not_stuck_bind {A B} (m : M A) (k : A -> M B) (s : session) :
  not_stuck (ending_of (m s)) ->
  (forall a s', m s = Ret a s' -> not_stuck (ending_of (k a s'))) ->
  not_stuck (ending_of (bind m k s)).
Proof.
  intros Hm Hk. unfold bind.
  destruct (m s) as [a s1|c s1|e s1|]; simpl in *; auto; not_stuck.
Qed.

(** What one [recv] does: it hands over the next byte string of the peer,
    or [b''] once there is none. *)
Lemma recv_inv (s s1 : session) (data : bytes) :
  recv s = Ret data s1 ->
  same_flags s s1 /\ stdout s1 = stdout s /\
  trace s1 = trace s ++ [EvRecv data] /\
  (inbox s = data :: inbox s1 \/
   (inbox s = [] /\ data = [] /\ inbox s1 = [])).
Proof.
  unfold recv. destruct (inbox s) as [|c rest] eqn:E; intros H;
    injection H as <- <-; simpl; rewrite ?E; repeat split; auto.
Qed.

Lemma negotiate_same_conn (data : bytes) : keeps same_conn (negotiate data).
Proof.
  apply keeps_negotiate;
    first [ exact same_conn_refl | exact same_conn_trans
          | exact same_conn_line | exact same_conn_send ].
Qed.

Lemma only_prints_same_conn (s s' : session) :
  only_prints s s' -> same_conn s s'.
Proof. intros (F & I & T). repeat split; try apply F; congruence. Qed.

Lemma match_phrase_from_pure (phrases : list string) (data : bytes) :
  forall i s r s',
    match_phrase_from i phrases data s = Ret r s' -> s' = s.
Proof.
  induction phrases as [|p rest IH]; intros i s r s' H; simpl in H.
  - injection H as _ <-. reflexivity.
  - unfold bind, encode in H. destruct (encode_ascii p); [|discriminate].
    unfold ret at 1 in H. destruct (bytes_in _ data).
    + injection H as _ <-. reflexivity.
    + eapply IH; eauto.
Qed.

Lemma read_until_loop_S (fuel : nat) (phrase : bytes) (s : session) :
  read_until_loop (S fuel) phrase s =
  (data <- receive ;;
   match data with
   | [] => print no_negotiation ;; sys_exit 1%Z
   | _ :: _ =>
       if bytes_in phrase data then ret tt
       else (negotiate data ;; read_until_loop fuel phrase)
   end) s.
Proof.
  simpl. unfold receive, bind.
  destruct (recv s) as [data s1|c s1|e s1|]; trivial.
  unfold get_session.
  destruct (print_debug (serv s1) data s1) as [a s2|c s2|e s2|]; trivial.
Qed.

Lemma expect_loop_S (fuel : nat) (phrases : list string) (s : session) :
  expect_loop (S fuel) phrases s =
  (data <- receive ;;
   match data with
   | [] => print no_negotiation ;; sys_exit 1%Z
   | _ :: _ =>
       result <- match_phrase phrases data ;;
       if negb (fst result =? -1)%Z then ret result
       else (negotiate data ;; expect_loop fuel phrases)
   end) s.
Proof.
  simpl. unfold receive, bind.
  destruct (recv s) as [data s1|c s1|e s1|]; trivial.
  unfold get_session.
  destruct (print_debug (serv s1) data s1) as [a s2|c s2|e s2|]; trivial.
Qed.

Lemma receive_not_stuck : ends not_stuck receive.
Proof.
  unfold receive.
  apply ends_bind; [apply ends_recv; not_stuck | intros data].
  apply ends_bind; [apply ends_get_session; not_stuck | intros s].
  apply ends_bind; [apply ends_print_debug; not_stuck | intros _].
  apply ends_ret; not_stuck.
Qed.

Lemma receive_inv (s s2 : session) (data : bytes) :
  receive s = Ret data s2 ->
  same_flags s s2 /\
  sent s2 = sent s /\
  trace s2 = trace s ++ [EvRecv data] /\
  (inbox s = data :: inbox s2 \/
   (inbox s = [] /\ data = [] /\ inbox s2 = [])).
Proof.
  unfold receive. intros H.
  apply bind_Ret_inv in H as (d & s1 & Hr & H).
  apply bind_Ret_inv in H as (s0 & s1' & Hg & H).
  injection Hg as <- <-.
  apply bind_Ret_inv in H as ([] & s2' & Hp & H).
  injection H as <- <-.
  apply recv_inv in Hr as (F & _ & T & I).
  pose proof (keeps_Ret _ _ _ _ _ (print_debug_only_prints (serv s1) d) Hp)
    as (F' & I' & T').
  split; [apply (same_flags_trans s s1 s2' F F')|].
  split; [unfold sent; rewrite T', T, sent_of_app; simpl; apply app_nil_r|].
  split; [congruence|]. rewrite I'. exact I.
Qed.

Lemma read_until_loop_total :
  forall fuel phrase s,
    List.length (inbox s) < fuel ->
    not_stuck (ending_of (read_until_loop fuel phrase s)).
Proof.
  induction fuel as [|fuel IH]; intros phrase s H; [lia|].
  rewrite read_until_loop_S.
  apply not_stuck_bind; [apply receive_not_stuck|].
  intros data s2 Hr. apply receive_inv in Hr as (_ & _ & _ & I).
  destruct data as [|x d]; [not_stuck|].
  destruct (bytes_in phrase (x :: d)); [not_stuck|].
  apply not_stuck_bind; [apply negotiate_total|].
  intros [] s3 Hn. apply IH.
  apply (keeps_Ret _ _ _ _ _ (negotiate_same_conn (x :: d))) in Hn
    as (_ & I3 & _).
  destruct I as [I|(_ & I & _)]; [|discriminate].
  rewrite I3. rewrite I in H. simpl in H. lia.
Qed.

Lemma expect_loop_total :
  forall fuel phrases s,
    List.length (inbox s) < fuel ->
    not_stuck (ending_of (expect_loop fuel phrases s)).
Proof.
  induction fuel as [|fuel IH]; intros phrases s H; [lia|].
  rewrite expect_loop_S.
  apply not_stuck_bind; [apply receive_not_stuck|].
  intros data s2 Hr. apply receive_inv in Hr as (_ & _ & _ & I).
  destruct data as [|x d]; [not_stuck|].
  apply not_stuck_bind;
    [apply (ends_match_phrase_from not_stuck); not_stuck|].
  intros r s2' Hm. apply match_phrase_from_pure in Hm as ->.
  destruct (negb _); [not_stuck|].
  apply not_stuck_bind; [apply negotiate_total|].
  intros [] s3 Hn. apply IH.
  apply (keeps_Ret _ _ _ _ _ (negotiate_same_conn (x :: d))) in Hn
    as (_ & I3 & _).
  destruct I as [I|(_ & I & _)]; [|discriminate].
  rewrite I3. rewrite I in H. simpl in H. lia.
Qed.

(** [read_until] and [expect] always come to an end in this model, where
    the peer closes the connection after finitely many byte strings. *)
Lemma read_until_total (phrase : string) : ends not_stuck (read_until phrase).
Proof.
  intros s. unfold read_until, bind, encode.
  destruct (encode_ascii phrase); [|not_stuck].
  unfold ret at 1, get_session. apply read_until_loop_total. lia.
Qed.

Lemma expect_total (phrases : list string) : ends not_stuck (expect phrases).
Proof.
  intros s. unfold expect, bind, get_session.
  apply expect_loop_total. lia.
Qed.

(** ** The peer closes the connection *)

Lemma receive_empty (s s1 : session) :
  recv s = Ret [] s1 ->
  receive s =
  Ret [] (if debug s1
          then log_line LBlank (log_line (LDebug (serv s1) []) s1)
          else s1).
Proof.
  intros H. unfold receive. bind_ret H.
  unfold bind at 1. unfold get_session at 1.
  pose proof (print_debug_no_IAC (serv s1) [] s1 (Forall_nil _)) as Hp.
  bind_ret Hp. reflexivity.
Qed.

(** C5. In either read loop, when the byte string just received is empty,
    the loop prints its one message and leaves through [sys.exit(1)]: the
    process ends there, once, and the traffic of the connection ends with
    that empty receive, so nothing has been sent after it. This holds at
    every turn of [read_until] and of [expect], and so for a call of either
    whose first receive is empty. *)
Theorem read_loop_empty_chunk_fatal (s s1 : session) :
  recv s = Ret [] s1 ->
  (forall fuel phrase,
     read_until_loop (S fuel) phrase s = Exit 1%Z (after_close s1)) /\
  (forall fuel phrases,
     expect_loop (S fuel) phrases s = Exit 1%Z (after_close s1)) /\
  (forall phrase,
     encode_ascii phrase <> None ->
     read_until phrase s = Exit 1%Z (after_close s1)) /\
  (forall phrases, expect phrases s = Exit 1%Z (after_close s1)) /\
  trace (after_close s1) = trace s ++ [EvRecv []] /\
  sent (after_close s1) = sent s /\
  stdout (after_close s1) =
  stdout s ++
  (if debug s then [LDebug (serv s) []; LBlank] else []) ++
  [no_negotiation].
Proof.
  intros H. pose proof (receive_empty s s1 H) as Hr.
  assert (L1 : forall fuel phrase,
             read_until_loop (S fuel) phrase s = Exit 1%Z (after_close s1)).
  { intros fuel phrase. rewrite read_until_loop_S. bind_ret Hr.
    reflexivity. }
  assert (L2 : forall fuel phrases,
             expect_loop (S fuel) phrases s = Exit 1%Z (after_close s1)).
  { intros fuel phrases. rewrite expect_loop_S. bind_ret Hr.
    reflexivity. }
  apply recv_inv in H as ((D & _ & _ & V) & O & T & _).
  repeat split.
  - exact L1.
  - exact L2.
  - intros phrase He. unfold read_until, bind, encode.
    destruct (encode_ascii phrase); [|congruence].
    unfold ret at 1, get_session. apply L1.
  - intros phrases. unfold expect, bind, get_session. apply L2.
  - unfold after_close. destruct (debug s1); simpl; exact T.
  - unfold sent, after_close. destruct (debug s1); simpl; rewrite T;
      rewrite sent_of_app; simpl; apply app_nil_r.
  - unfold after_close. rewrite <- D, <- V, <- O.
    destruct (debug s1); simpl; rewrite <- ?app_assoc; reflexivity.
Qed.

Lemma read_loop_empty_chunk_fatal_witness :
  let s := fresh true [[]; b "login:"] in
  let s1 := log_io (EvRecv []) (set_inbox [b "login:"] s) in
  (forall fuel phrase,
     read_until_loop (S fuel) phrase s = Exit 1%Z (after_close s1)) /\
  (forall fuel phrases,
     expect_loop (S fuel) phrases s = Exit 1%Z (after_close s1)) /\
  (forall phrase,
     encode_ascii phrase <> None ->
     read_until phrase s = Exit 1%Z (after_close s1)) /\
  (forall phrases, expect phrases s = Exit 1%Z (after_close s1)) /\
  trace (after_close s1) = trace s ++ [EvRecv []] /\
  sent (after_close s1) = sent s /\
  stdout (after_close s1) =
  stdout s ++
  (if debug s then [LDebug (serv s) []; LBlank] else []) ++
  [no_negotiation].
Proof.
  apply (read_loop_empty_chunk_fatal (fresh true [[]; b "login:"])).
  reflexivity.
Defined.

(** The peer hangs up after the login prompt: the user name goes out, the
    next receive is empty, and the process exits with nothing sent after
    it. *)
Example login_peer_closes :
  exists s',
    login "bob" "secret" (fresh false [b "login: "]) = Exit 1%Z s' /\
    trace s' = [EvRecv (b "login: "); EvSend (b "bob" ++ [x0a]); EvRecv []] /\
    stdout s' = [no_negotiation].
Proof. vm_compute. eexists. repeat split. Qed.

(** ** Phrase matching *)

Lemma starts_with_spec (p d : bytes) :
  starts_with p d = true <-> exists post, d = p ++ post.
Proof.
  revert d. induction p as [|x p IH]; intros d; simpl.
  - split; eauto.
  - destruct d as [|y d].
    + split; [discriminate | intros (post & H); discriminate].
    + rewrite andb_true_iff, IH. split.
      * intros (E & post & ->). apply Byte.byte_dec_bl in E. subst. eauto.
      * intros (post & H). injection H as -> ->.
        split; [apply Byte.byte_dec_lb; reflexivity | eauto].
Qed.

(** [bytes_in] is Python's [in] on bytes: the phrase occurs somewhere in
    the data as a contiguous block. *)
Lemma bytes_in_spec (p d : bytes) :
  bytes_in p d = true <-> exists pre post, d = pre ++ p ++ post.
Proof.
  induction d as [|y d IH]; simpl.
  - rewrite orb_false_r, starts_with_spec. split.
    + intros (post & H). exists [], post. exact H.
    + intros (pre & post & H). destruct pre; [eauto|discriminate].
  - rewrite orb_true_iff, starts_with_spec, IH. split.
    + intros [(post & H)|(pre & post & H)].
      * exists [], post. exact H.
      * exists (y :: pre), post. simpl. congruence.
    + intros (pre & post & H). destruct pre as [|z pre].
      * left. eauto.
      * right. injection H as _ H. eauto.
Qed.

Lemma match_phrase_from_first (before after : list string) (phrase : string)
    (ph data : bytes) (s : session) :
  forallb (misses data) before = true ->
  encode_ascii phrase = Some ph ->
  bytes_in ph data = true ->
  forall i,
    match_phrase_from i (before ++ phrase :: after) data s =
    Ret ((i + Z.of_nat (List.length before))%Z, Some ph) s.
Proof.
  intros Hb He Hin. induction before as [|q before IH]; intros i; simpl.
  - unfold bind, encode. rewrite He. unfold ret at 1. rewrite Hin.
    rewrite Z.add_0_r. reflexivity.
  - simpl in Hb. apply andb_true_iff in Hb as (Hq & Hb).
    unfold misses in Hq. unfold bind, encode.
    destruct (encode_ascii q) as [e|]; [|discriminate].
    unfold ret at 1. apply negb_true_iff in Hq. rewrite Hq.
    rewrite (IH Hb). f_equal. f_equal. lia.
Qed.

Lemma match_phrase_from_none (phrases : list string) (data : bytes)
    (s : session) :
  forallb (misses data) phrases = true ->
  forall i, match_phrase_from i phrases data s = Ret ((-1)%Z, None) s.
Proof.
  induction phrases as [|q phrases IH]; intros Hb i; simpl; trivial.
  simpl in Hb. apply andb_true_iff in Hb as (Hq & Hb).
  unfold misses in Hq. unfold bind, encode.
  destruct (encode_ascii q) as [e|]; [|discriminate].
  unfold ret at 1. apply negb_true_iff in Hq. rewrite Hq. apply IH, Hb.
Qed.

(** What a result of [match_phrase] says. *)
Lemma match_phrase_from_inv (phrases : list string) (data : bytes) :
  forall i s j r s',
    match_phrase_from i phrases data s = Ret (j, r) s' ->
    (j = (-1)%Z /\ r = None) \/
    (exists k phrase ph,
       nth_error phrases k = Some phrase /\
       encode_ascii phrase = Some ph /\
       bytes_in ph data = true /\
       j = (i + Z.of_nat k)%Z /\ r = Some ph).
Proof.
  induction phrases as [|q phrases IH]; intros i s j r s' H; simpl in H.
  - injection H as <- <- _. left. split; reflexivity.
  - unfold bind, encode in H.
    destruct (encode_ascii q) as [e|] eqn:He; [|discriminate].
    unfold ret at 1 in H. destruct (bytes_in e data) eqn:Hin.
    + injection H as <- <- _. right. exists 0, q, e.
      repeat split; trivial. simpl. lia.
    + apply IH in H as [H|(k & phrase & ph & Hk & Hp & Hb & -> & ->)].
      * left. exact H.
      * right. exists (S k), phrase, ph. repeat split; trivial. lia.
Qed.

(** A result of [expect] comes from one received byte string, in which the
    matched phrase lies whole. *)
Lemma expect_loop_inv :
  forall fuel phrases s j r s',
    expect_loop fuel phrases s = Ret (j, r) s' ->
    exists k phrase ph chunk,
      nth_error phrases k = Some phrase /\
      encode_ascii phrase = Some ph /\
      In chunk (inbox s) /\ bytes_in ph chunk = true /\
      j = Z.of_nat k /\ r = Some ph /\ same_flags s s'.
Proof.
  induction fuel as [|fuel IH]; intros phrases s j r s' H; [discriminate|].
  rewrite expect_loop_S in H.
  apply bind_Ret_inv in H as (data & s2 & Hr & H).
  apply receive_inv in Hr as (F & _ & _ & I).
  destruct data as [|x d]; [discriminate|].
  destruct I as [I|(_ & I & _)]; [|discriminate].
  apply bind_Ret_inv in H as ([j0 r0] & s2' & Hm & H).
  pose proof (match_phrase_from_pure _ _ _ _ _ _ Hm) as ->.
  apply match_phrase_from_inv in Hm.
  destruct (negb (fst (j0, r0) =? -1)%Z) eqn:Hneg.
  - injection H as <- <- <-.
    destruct Hm as [(-> & _)|(k & phrase & ph & Hk & Hp & Hb & -> & ->)];
      [discriminate|].
    exists k, phrase, ph, (x :: d). rewrite I.
    repeat split; try apply F; trivial. left. reflexivity.
  - apply bind_Ret_inv in H as ([] & s3 & Hn & H).
    apply (keeps_Ret _ _ _ _ _ (negotiate_same_conn (x :: d))) in Hn
      as (F3 & I3 & _).
    apply IH in H as (k & phrase & ph & chunk & Hk & Hp & Hc & Hb & -> & ->
                      & F').
    exists k, phrase, ph, chunk. rewrite I.
    repeat split; trivial;
      try (destruct F as (?&?&?&?), F3 as (?&?&?&?), F' as (?&?&?&?);
           congruence).
    right. rewrite <- I3. exact Hc.
Qed.

Lemma read_until_loop_inv :
  forall fuel phrase s v s',
    read_until_loop fuel phrase s = Ret v s' ->
    exists chunk, In chunk (inbox s) /\ bytes_in phrase chunk = true.
Proof.
  induction fuel as [|fuel IH]; intros phrase s v s' H; [discriminate|].
  rewrite read_until_loop_S in H.
  apply bind_Ret_inv in H as (data & s2 & Hr & H).
  apply receive_inv in Hr as (F & _ & _ & I).
  destruct data as [|x d]; [discriminate|].
  destruct I as [I|(_ & I & _)]; [|discriminate].
  destruct (bytes_in phrase (x :: d)) eqn:Hin.
  - exists (x :: d). rewrite I. split; [left; reflexivity | exact Hin].
  - apply bind_Ret_inv in H as ([] & s3 & Hn & H).
    apply (keeps_Ret _ _ _ _ _ (negotiate_same_conn (x :: d))) in Hn
      as (F3 & I3 & _).
    apply IH in H as (chunk & Hc & Hb).
    exists chunk. rewrite I. split; trivial. right. rewrite <- I3. exact Hc.
Qed.

(** C6. Each received byte string is searched on its own. A phrase that no
    single byte string of the peer contains whole is never returned as a
    match by [expect], and [read_until] never returns for it, whether or
    not the phrase shows up once the byte strings are put end to end. *)
Theorem split_phrase_never_matched (s : session) (ph : bytes) :
  (forall chunk, In chunk (inbox s) -> bytes_in ph chunk = false) ->
  (forall phrases i s', expect phrases s <> Ret (i, Some ph) s') /\
  (forall phrase v s',
     encode_ascii phrase = Some ph -> read_until phrase s <> Ret v s').
Proof.
  intros Hno. split.
  - intros phrases i s' H. unfold expect, bind, get_session in H.
    apply expect_loop_inv in H
      as (k & phrase & ph' & chunk & _ & _ & Hc & Hb & _ & E & _).
    injection E as <-. rewrite (Hno chunk Hc) in Hb. discriminate.
  - intros phrase v s' He H. unfold read_until, bind, encode in H.
    rewrite He in H. unfold ret at 1, get_session in H.
    apply read_until_loop_inv in H as (chunk & Hc & Hb).
    rewrite (Hno chunk Hc) in Hb. discriminate.
Qed.

(** The phrase "ogin" arrives as "log" and "in: ": it is there in the
    stream, and in neither byte string. *)
Lemma split_phrase_never_matched_witness :
  let s := fresh false [b "log"; b "in: "] in
  bytes_in (b "ogin") (b "log" ++ b "in: ") = true /\
  (forall phrases i s', expect phrases s <> Ret (i, Some (b "ogin")) s') /\
  (forall phrase v s',
     encode_ascii phrase = Some (b "ogin") -> read_until phrase s <> Ret v s').
Proof.
  split; [reflexivity|].
  apply (split_phrase_never_matched (fresh false [b "log"; b "in: "])).
  intros chunk [<-|[<-|[]]]; reflexivity.
Defined.

Example read_until_split_phrase :
  exists s',
    read_until "ogin" (fresh false [b "log"; b "in: "]) = Exit 1%Z s' /\
    trace s' = [EvRecv (b "log"); EvRecv (b "in: "); EvRecv []].
Proof. eexists. split; reflexivity. Qed.

(** C9, as stated, fails: the phrase at index 0 has no ['ascii'] bytes,
    index 1 is the smallest whose phrase occurs in the data, and
    [match_phrase] raises UnicodeEncodeError instead of returning it. *)
Lemma match_phrase_non_ascii_raises :
  let phrases := [String (ascii_of_nat 233) EmptyString; "a"%string] in
  let data := b "a" in
  let s := fresh false [] in
  encode_ascii (String (ascii_of_nat 233) EmptyString) = None /\
  encode_ascii "a" = Some (b "a") /\
  bytes_in (b "a") data = true /\
  match_phrase phrases data s = Raise UnicodeEncodeError s /\
  match_phrase phrases data s <> Ret (1%Z, Some (b "a")) s.
Proof. cbv zeta. repeat split. discriminate. Qed.

(** C9, amended. For phrases that all have ['ascii'] bytes up to the first
    one that occurs in the data, [match_phrase] returns the index of that
    first one together with its bytes, wherever in the data the phrases lie
    and whatever comes later in the list. In particular data that contains
    'ncorrect' gives index 0 on the list [login] expects, prompt characters
    in the same data notwithstanding, and [login] takes that for a failed
    login: it prints and leaves [logged_in] as it is. *)
Theorem match_phrase_smallest_index (before after : list string)
    (phrase : string) (ph data : bytes) (s : session) :
  forallb (misses data) before = true ->
  encode_ascii phrase = Some ph ->
  bytes_in ph data = true ->
  match_phrase (before ++ phrase :: after) data s =
  Ret (Z.of_nat (List.length before), Some ph) s /\
  (bytes_in (b "ncorrect") data = true ->
   match_phrase expected data s = Ret (0%Z, Some (b "ncorrect")) s /\
   exists s',
     login_decide (0%Z, Some (b "ncorrect")) s = Ret tt s' /\
     logged_in s' = logged_in s /\ trace s' = trace s).
Proof.
  intros Hb He Hin. split.
  - unfold match_phrase.
    rewrite (match_phrase_from_first before after phrase ph data s Hb He Hin).
    reflexivity.
  - intros Hn. split.
    + unfold match_phrase.
      apply (match_phrase_from_first [] (chars prompts) "ncorrect"%string
               (b "ncorrect") data s eq_refl eq_refl Hn 0%Z).
    + eexists. repeat split.
Qed.

Lemma match_phrase_smallest_index_witness :
  let data := b "Login incorrect: " in
  let s := fresh false [] in
  match_phrase ([] ++ "ncorrect"%string :: chars prompts) data s =
  Ret (Z.of_nat 0, Some (b "ncorrect")) s /\
  (bytes_in (b "ncorrect") data = true ->
   match_phrase expected data s = Ret (0%Z, Some (b "ncorrect")) s /\
   exists s',
     login_decide (0%Z, Some (b "ncorrect")) s = Ret tt s' /\
     logged_in s' = logged_in s /\ trace s' = trace s).
Proof.
  apply (match_phrase_smallest_index [] (chars prompts) "ncorrect"
           (b "ncorrect") (b "Login incorrect: ") (fresh false []));
    reflexivity.
Defined.

(** A later phrase is found only when the earlier ones are absent. *)
Example match_phrase_third :
  match_phrase expected (b "bob@host $ ") (fresh false []) =
  Ret (3%Z, Some (b "$")) (fresh false []).
Proof. reflexivity. Qed.

(** ** [login] *)

Example expected_phrases :
  expected = ["ncorrect"; ":"; ">"; "$"; "#"; "%"]%string.
Proof. reflexivity. Qed.

Lemma same_flags_line l s : same_flags s (log_line l s).
Proof. repeat split. Qed.

Lemma same_flags_io e s : same_flags s (log_io e s).
Proof. repeat split. Qed.

Lemma same_flags_recv x rest s :
  same_flags s (log_io (EvRecv x) (set_inbox rest s)).
Proof. repeat split. Qed.

Lemma login_prompts_same_flags (username password : string) :
  keeps same_flags (login_prompts username password).
Proof.
  apply keeps_login_prompts;
    first [ exact same_flags_refl | exact same_flags_trans
          | exact same_flags_line | exact same_flags_recv
          | intros; apply same_flags_io ].
Qed.

Lemma expect_inv (phrases : list string) (s s' : session) (j : Z)
    (r : option bytes) :
  expect phrases s = Ret (j, r) s' ->
  (0 <= j < Z.of_nat (List.length phrases))%Z /\ same_flags s s'.
Proof.
  unfold expect, bind, get_session. intros H.
  apply expect_loop_inv in H
    as (k & phrase & ph & chunk & Hk & _ & _ & _ & -> & _ & F).
  split; trivial.
  assert (k < List.length phrases) by (apply nth_error_Some; congruence).
  lia.
Qed.

(** C2. When a run of [login] gets as far as its final [expect] and that
    call returns index [i] of the list ['ncorrect', ':', '>', '$', '#',
    '%'], then [login] returns normally, and it has set [logged_in] to true
    if [i > 0] and left it alone otherwise. So on a session that was not
    logged in the flag ends up true exactly when [i > 0]; with [i = 0] it
    stays as it was, and nothing is raised. *)
Theorem login_sets_flag (username password : string) (s s1 s2 : session)
    (i : Z) (ph : option bytes) :
  login_prompts username password s = Ret tt s1 ->
  expect expected s1 = Ret (i, ph) s2 ->
  exists s3,
    login username password s = Ret tt s3 /\
    logged_in s3 = (if (i >? 0)%Z then true else logged_in s) /\
    (logged_in s = false -> (logged_in s3 = true <-> (i > 0)%Z)) /\
    (i = 0%Z -> logged_in s3 = logged_in s /\ trace s3 = trace s2) /\
    (0 <= i < 6)%Z.
Proof.
  intros H1 H2.
  pose proof (keeps_Ret _ _ _ _ _
                (login_prompts_same_flags username password) H1)
    as (_ & L1 & _).
  destruct (expect_inv _ _ _ _ _ H2) as (Hi & (_ & L2 & _)).
  change (Z.of_nat (List.length expected)) with 6%Z in Hi.
  assert (E : login username password s = login_decide (i, ph) s2).
  { unfold login. bind_ret H1. bind_ret H2. reflexivity. }
  rewrite E. unfold login_decide. cbn [fst].
  destruct (i >? 0)%Z eqn:Hpos.
  - eexists. split; [reflexivity|]. cbn [logged_in set_logged_in].
    apply Z.gtb_lt in Hpos.
    repeat split; intros; trivial; try lia.
  - assert (Hle : (i <= 0)%Z).
    { destruct (Z.gtb_spec i 0); [discriminate | lia]. }
    destruct (i =? 0)%Z; (eexists; split; [reflexivity|]);
      cbn [logged_in log_line trace]; rewrite L2, L1;
      repeat split; trivial; try lia; try discriminate.
    all: intros; congruence.
Qed.

Lemma login_sets_flag_witness :
  let s := fresh false [b "login: "; b "Password: "; b "bob@host $ "] in
  exists s3,
    login "bob" "secret" s = Ret tt s3 /\
    (logged_in s3 = true <-> (3 > 0)%Z).
Proof.
  cbv zeta.
  edestruct (login_sets_flag "bob" "secret"
               (fresh false [b "login: "; b "Password: "; b "bob@host $ "]))
    as (s3 & E & _ & L & _).
  - vm_compute. reflexivity.
  - vm_compute. reflexivity.
  - exists s3. split; [exact E | exact (L eq_refl)].
Defined.

(** The peer answers the password with a line that holds both 'ncorrect'
    and the prompt character ':': index 0 wins and the login has failed. *)
Example login_incorrect :
  exists s',
    login "bob" "guess"
      (fresh false [b "login: "; b "Password: "; b "Login incorrect: "]) =
    Ret tt s' /\
    logged_in s' = false /\
    stdout s' = [LText "[-] Unable to log in";
                 LText "    Incorrect username or password"].
Proof. vm_compute. eexists. repeat split. Qed.

(** ** [write] *)

(** C7. While [logged_in] is false, [write] prints its two lines of error
    and returns; it has sent nothing, received nothing, raised nothing,
    and apart from the printed lines the session is what it was. *)
Theorem write_not_logged_in (cmd : string) (s : session) :
  logged_in s = false ->
  exists s',
    write cmd s = Ret VNone s' /\
    stdout s' =
    stdout s ++ [LUnableToWrite cmd; LText "    You are not logged in"] /\
    trace s' = trace s /\ sent s' = sent s /\
    recvs_of (trace s') = recvs_of (trace s) /\
    inbox s' = inbox s /\ same_flags s s'.
Proof.
  intros H. unfold write, bind, get_session. rewrite H.
  eexists. split; [reflexivity|]. simpl.
  rewrite <- app_assoc. repeat split.
Qed.

Lemma write_not_logged_in_witness :
  let s := fresh true [b "$ "] in
  exists s',
    write "pwd" s = Ret VNone s' /\
    stdout s' =
    stdout s ++ [LUnableToWrite "pwd"; LText "    You are not logged in"] /\
    trace s' = trace s /\ sent s' = sent s /\
    recvs_of (trace s') = recvs_of (trace s) /\
    inbox s' = inbox s /\ same_flags s s'.
Proof.
  apply (write_not_logged_in "pwd" (fresh true [b "$ "])). reflexivity.
Defined.

Lemma ascii_byte_not_IAC (a : ascii) :
  is_ascii a = true -> byte_of_ascii a <> xff.
Proof.
  destruct a as [b0 b1 b2 b3 b4 b5 b6 b7].
  destruct b7; [destruct b0, b1, b2, b3, b4, b5, b6; discriminate|].
  intros _. destruct b0, b1, b2, b3, b4, b5, b6; discriminate.
Qed.

(** ['ascii'] bytes never hold the escape byte. *)
Lemma encode_ascii_no_IAC (x : string) (c : bytes) :
  encode_ascii x = Some c -> Forall (fun y => y <> xff) c.
Proof.
  unfold encode_ascii, list_byte_of_string.
  destruct (forallb is_ascii (list_ascii_of_string x)) eqn:E; [|discriminate].
  intros H. injection H as <-.
  rewrite forallb_forall in E. apply Forall_forall. intros y Hy.
  apply in_map_iff in Hy as (a & <- & Ha).
  apply ascii_byte_not_IAC. apply E. exact Ha.
Qed.


(** With [debug] on, the byte string received after the command can still
    bring the debug printer down; the command has been sent by then. *)
Example write_debug_raises :
  exists s',
    write "pwd"
      (set_logged_in true (fresh true [b "bob@host $ "; [xff; xfb]])) =
    Raise IndexError s' /\
    sent s' = [b "pwd" ++ [x0a]].
Proof. vm_compute. eexists. split; reflexivity. Qed.

(** ** Data without the escape byte *)

Lemma negotiate_loop_no_IAC (data : bytes) (s : session) :
  Forall (fun x => x <> xff) data ->
  forall fuel pos,
    List.length data <= pos + fuel ->
    negotiate_loop fuel data pos s = Ret tt s.
Proof.
  intros Hd. induction fuel as [|fuel IH]; intros pos H.
  - apply negotiate_loop_done. lia.
  - destruct (Nat.lt_ge_cases pos (List.length data)) as [Hlt|Hge];
      [|apply negotiate_loop_done; lia].
    rewrite negotiate_loop_S by trivial.
    destruct (item_not_IAC data pos Hd Hlt) as (z & Hz & Hn).
    bind_ret (negotiate_body_plain data pos z s Hz Hn).
    apply IH. lia.
Qed.

(** X4. Scanning data that holds no escape byte returns with the session
    exactly as it was: nothing is sent and nothing is printed. *)
Lemma negotiate_no_IAC (data : bytes) (s : session) :
  Forall (fun x => x <> xff) data -> negotiate data s = Ret tt s.
Proof.
  intros Hd. unfold negotiate. apply negotiate_loop_no_IAC; trivial.
Qed.

Lemma negotiate_no_IAC_witness :
  negotiate (b "login: ") (fresh true []) = Ret tt (fresh true []).
Proof.
  apply (negotiate_no_IAC (b "login: ") (fresh true [])).
  repeat constructor; discriminate.
Defined.

Example negotiate_will :
  negotiate [xff; xfb; x01] (fresh false []) =
  Ret tt (log_io (EvSend [xff; xfe; x01]) (fresh false [])).
Proof. reflexivity. Qed.

(** ** [login] and [write] come to an end *)

Lemma print_debug_not_stuck (host : string) (data : bytes) :
  ends not_stuck (print_debug host data).
Proof. apply ends_print_debug; not_stuck. Qed.

Lemma login_decide_not_stuck (result : match_result) :
  ends not_stuck (login_decide result).
Proof.
  intros s. unfold login_decide.
  destruct (fst result >? 0)%Z; [not_stuck|].
  unfold bind, print. destruct (fst result =? 0)%Z; not_stuck.
Qed.

Lemma login_prompts_not_stuck (username password : string) :
  ends not_stuck (login_prompts username password).
Proof.
  unfold login_prompts.
  apply ends_bind; [apply ends_encode; not_stuck | intros u].
  apply ends_bind; [apply read_until_total | intros _].
  apply ends_bind; [apply ends_send; not_stuck | intros _].
  apply ends_bind; [apply ends_get_session; not_stuck | intros s0].
  apply ends_bind; [apply print_debug_not_stuck | intros _].
  apply ends_bind; [apply ends_encode; not_stuck | intros pw].
  apply ends_bind; [apply read_until_total | intros _].
  apply ends_bind; [apply ends_send; not_stuck | intros _].
  apply ends_bind; [apply ends_get_session; not_stuck | intros s1].
  apply print_debug_not_stuck.
Qed.

(** In this model [login] always comes to an end. *)
Lemma login_total (username password : string) :
  ends not_stuck (login username password).
Proof.
  unfold login.
  apply ends_bind; [apply login_prompts_not_stuck | intros _].
  apply ends_bind; [apply expect_total | intros result].
  apply login_decide_not_stuck.
Qed.

(** And so does [write]. *)
Lemma write_total (cmd : string) : ends not_stuck (write cmd).
Proof.
  intros s. unfold write. unfold bind at 1. unfold get_session at 1.
  destruct (logged_in s); [|not_stuck].
  revert s.
  change (ends not_stuck
            (expect (chars prompts) ;;
             c <- encode (cmd ++ newline) ;;
             send c ;;
             s0 <- get_session ;;
             print_debug (client s0) c ;;
             output <- recv ;;
             s1 <- get_session ;;
             print_debug (serv s1) output ;;
             ret VNone)).
  apply ends_bind; [apply expect_total | intros _].
  apply ends_bind; [apply ends_encode; not_stuck | intros c].
  apply ends_bind; [apply ends_send; not_stuck | intros _].
  apply ends_bind; [apply ends_get_session; not_stuck | intros s0].
  apply ends_bind; [apply print_debug_not_stuck | intros _].
  apply ends_bind; [apply ends_recv; not_stuck | intros output].
  apply ends_bind; [apply ends_get_session; not_stuck | intros s1].
  apply ends_bind; [apply print_debug_not_stuck | intros _].
  apply ends_ret; not_stuck.
Qed.

(** * Further properties of the client *)

(** ** [match_code] *)

(** X1. The reverse lookup is exact: [match_code] gives a name for a code
    just when the table maps that name to that code; for a code that is
    not in the table, such as any outside 240..255, it gives [None]. *)
Theorem match_code_spec (code : Z) (name : string) :
  (match_code code = Some name <-> In (name, code) commands) /\
  ((code < 240 \/ 255 < code)%Z -> match_code code = None).
Proof.
  split; [split|].
  - unfold match_code. intros H.
    destruct (find (fun kv => (snd kv =? code)%Z) commands) as [[n c]|] eqn:E;
      [|discriminate].
    injection H as <-. apply find_some in E as (Hin & Hc).
    simpl in Hc. apply Z.eqb_eq in Hc. subst c. exact Hin.
  - intros H. simpl in H.
    repeat (destruct H as [H|H]; [injection H as <- <-; reflexivity|]).
    destruct H.
  - intros H. unfold match_code.
    destruct (find (fun kv => (snd kv =? code)%Z) commands) as [[n c]|] eqn:E;
      [|reflexivity].
    apply find_some in E as (Hin & Hc). simpl in Hc.
    apply Z.eqb_eq in Hc. subst c. simpl in Hin.
    repeat (destruct Hin as [Hin|Hin]; [injection Hin as _ <-; lia|]).
    destruct Hin.
Qed.

(** ** [handle_command] outside its two verbs and off the byte range *)

Lemma bytes_of_ints_response (v val : Z) :
  (0 <= v < 256)%Z ->
  (exists r, bytes_of_ints [IAC; v; val] = Some r) <-> (0 <= val < 256)%Z.
Proof.
  intros Hv. simpl. unfold byte_of_int at 1 2.
  replace ((0 <=? v)%Z && (v <? 256)%Z) with true
    by (symmetry; apply andb_true_iff; split;
        [apply Z.leb_le | apply Z.ltb_lt]; lia).
  destruct (Byte.of_N (Z.to_N v)) as [x|] eqn:Ev.
  2:{ exfalso. pose proof (Byte.to_of_N_option_map (Z.to_N v)) as H.
      rewrite Ev in H. simpl in H.
      destruct (N.leb_spec (Z.to_N v) 255); [discriminate | lia]. }
  unfold byte_of_int.
  destruct ((0 <=? val)%Z && (val <? 256)%Z) eqn:E.
  - apply andb_true_iff in E as (E1 & E2).
    apply Z.leb_le in E1. apply Z.ltb_lt in E2.
    destruct (Byte.of_N (Z.to_N val)) as [y|] eqn:Ey.
    + split; [lia | eauto].
    + exfalso. pose proof (Byte.to_of_N_option_map (Z.to_N val)) as H.
      rewrite Ey in H. simpl in H.
      destruct (N.leb_spec (Z.to_N val) 255); [discriminate | lia].
  - split.
    + intros (r & H). discriminate.
    + intros H. exfalso.
      assert (((0 <=? val)%Z && (val <? 256)%Z) = true)
        by (apply andb_true_iff; split;
            [apply Z.leb_le | apply Z.ltb_lt]; lia).
      congruence.
Qed.

(** X2. [handle_command] returns a response just when the verb is WILL or
    DO and the value fits a byte; the response then has three bytes. The
    verb is looked at first: any other verb ends the process with status 0
    whatever the value, and only under WILL or DO does a value outside
    [range(256)] raise ValueError. The session is not touched on the way,
    apart from the line printed before the exit. *)
Theorem handle_command_cases (code val : Z) (s : session) :
  (code = WILL \/ code = DO ->
   (0 <= val < 256)%Z ->
   exists r, handle_command code val s = Ret r s /\ List.length r = 3) /\
  (code = WILL \/ code = DO ->
   ~ (0 <= val < 256)%Z ->
   handle_command code val s = Raise ValueError s) /\
  (code <> WILL -> code <> DO ->
   handle_command code val s = Exit 0%Z (log_line (LNoMethod code) s)).
Proof.
  split; [|split].
  - intros Hc Hv.
    assert (Hb : exists x, byte_of_int val = Some x).
    { destruct (byte_of_int val) as [x|] eqn:E; eauto.
      destruct (proj2 (bytes_of_ints_response DONT val ltac:(vm_compute; split; congruence)) Hv)
        as (r & Hr).
      simpl in Hr. rewrite E in Hr.
      destruct (byte_of_int DONT); discriminate. }
    destruct Hb as (x & Hx).
    assert (val = int_of_byte x) as ->.
    { unfold byte_of_int in Hx.
      destruct ((0 <=? val)%Z && (val <? 256)%Z); [|discriminate].
      apply Byte.to_of_N in Hx. unfold int_of_byte. rewrite Hx. lia. }
    exists [xff; counter_verb code; x].
    split; [apply handle_command_answer; exact Hc | reflexivity].
  - intros [-> | ->] Hv.
    + rewrite handle_command_WILL.
      destruct (bytes_of_ints [IAC; DONT; val]) as [r|] eqn:E; trivial.
      exfalso. apply Hv.
      apply (bytes_of_ints_response DONT val); [vm_compute; split; congruence | eauto].
    + rewrite handle_command_DO.
      destruct (bytes_of_ints [IAC; WONT; val]) as [r|] eqn:E; trivial.
      exfalso. apply Hv.
      apply (bytes_of_ints_response WONT val); [vm_compute; split; congruence | eauto].
  - apply handle_command_other.
Qed.

Lemma handle_command_cases_witness :
  (exists r, handle_command WILL 24 (fresh false []) = Ret r (fresh false [])
             /\ List.length r = 3) /\
  handle_command DO 256 (fresh false []) = Raise ValueError (fresh false []) /\
  handle_command WONT 256 (fresh false []) =
  Exit 0%Z (log_line (LNoMethod WONT) (fresh false [])).
Proof.
  destruct (handle_command_cases WILL 24 (fresh false [])) as (H1 & _ & _).
  destruct (handle_command_cases DO 256 (fresh false [])) as (_ & H2 & _).
  destruct (handle_command_cases WONT 256 (fresh false [])) as (_ & _ & H3).
  split; [|split].
  - apply H1; [left; reflexivity | lia].
  - apply H2; [right; reflexivity | lia].
  - apply H3; discriminate.
Defined.

Lemma match_code_spec_witness :
  (match_code 251 = Some "WILL"%string <-> In ("WILL"%string, 251%Z) commands)
  /\ match_code 17 = None.
Proof.
  destruct (match_code_spec 251 "WILL") as (H1 & _).
  destruct (match_code_spec 17 "WILL") as (_ & H2).
  split; [exact H1 | apply H2; lia].
Defined.

(** ** When the debug printer fails *)

Lemma print_command_at_dangling (data : bytes) (i : nat) (s : session) :
  item data i = Some IAC -> List.length data <= i + 2 ->
  print_command_at data i s = Raise IndexError s.
Proof.
  intros H0 Hlen. unfold print_command_at.
  bind_ret (getitem_Ret data i s H0). rewrite Z.eqb_refl.
  assert (H2 : item data (i + 2) = None).
  { unfold item. replace (nth_error data (i + 2)) with (@None byte);
      [reflexivity|]. symmetry. apply nth_error_None. lia. }
  destruct (item data (i + 1)) as [c|] eqn:H1.
  - bind_ret (getitem_Ret data (i + 1) s H1). cbv zeta.
    bind_raise (getitem_Raise data (i + 2) s H2). reflexivity.
  - bind_raise (getitem_Raise data (i + 1) s H1). reflexivity.
Qed.

Lemma print_command_at_complete (data : bytes) (i : nat) (s : session) :
  i < List.length data ->
  (item data i = Some IAC -> i + 2 < List.length data) ->
  exists s', print_command_at data i s = Ret tt s'.
Proof.
  intros Hi Hok. destruct (item_in_range data i Hi) as (z & Hz).
  destruct (Z.eq_dec z IAC) as [->|Hn].
  - specialize (Hok Hz).
    destruct (item_in_range data (i + 1) ltac:(lia)) as (c & Hc).
    destruct (item_in_range data (i + 2) Hok) as (v & Hv).
    eexists. apply (print_command_at_IAC data i s Hz Hc Hv).
  - exists s. apply (print_command_at_skip data i s Hz Hn).
Qed.

Lemma for_each_print_complete (data : bytes) (l : list nat) :
  Forall (fun i => i < List.length data) l ->
  (forall i, In i l -> item data i = Some IAC -> i + 2 < List.length data) ->
  forall s, exists s', for_each l (print_command_at data) s = Ret tt s'.
Proof.
  intros Hl. induction Hl as [|i l Hi Hl IH]; intros Hok s; simpl.
  - exists s. reflexivity.
  - destruct (print_command_at_complete data i s Hi
                (Hok i (or_introl eq_refl))) as (s1 & E1).
    bind_ret E1. apply IH. intros j Hj. apply Hok. right. exact Hj.
Qed.

Lemma for_each_print_dangling (data : bytes) (l : list nat) :
  Forall (fun i => i < List.length data) l ->
  (exists i, In i l /\ item data i = Some IAC /\ List.length data <= i + 2) ->
  forall s, exists s',
    for_each l (print_command_at data) s = Raise IndexError s'.
Proof.
  intros Hl. induction Hl as [|i l Hi Hl IH]; intros (j & Hj & H0 & Hlen) s.
  - destruct Hj.
  - simpl.
    destruct (item_in_range data i Hi) as (z & Hz).
    destruct (Z.eq_dec z IAC) as [->|Hn];
      [destruct (Nat.lt_ge_cases (i + 2) (List.length data)) as [Hok|Hbad]|].
    + destruct (print_command_at_complete data i s Hi (fun _ => Hok))
        as (s1 & E1).
      bind_ret E1. apply IH. exists j. repeat split; trivial.
      destruct Hj as [->|Hj]; [lia | exact Hj].
    + exists s. bind_raise (print_command_at_dangling data i s Hz Hbad).
      reflexivity.
    + bind_ret (print_command_at_skip data i s Hz Hn).
      apply IH. exists j. repeat split; trivial.
      destruct Hj as [->|Hj]; [congruence | exact Hj].
Qed.

Lemma is_IAC_item (data : bytes) (i : nat) (x : byte) :
  nth_error data i = Some x ->
  (is_IAC x = true <-> item data i = Some IAC).
Proof.
  intros H. unfold item, is_IAC. rewrite H. simpl. split.
  - intros E. apply Byte.byte_dec_bl in E. subst. reflexivity.
  - intros E. injection E as E. change IAC with (int_of_byte xff) in E.
    apply int_of_byte_inj in E. subst. reflexivity.
Qed.

(** An escape byte among the last two bytes is one that has no two bytes
    after it. *)
Lemma last_two_IAC (data : bytes) :
  existsb is_IAC (last_two data) = true <->
  exists i, item data i = Some IAC /\ List.length data <= i + 2.
Proof.
  unfold last_two. rewrite existsb_exists. split.
  - intros (x & Hin & Hx). apply In_nth_error in Hin as (j & Hj).
    rewrite nth_error_skipn in Hj.
    exists (List.length data - 2 + j). split.
    + apply (is_IAC_item _ _ _ Hj). exact Hx.
    + lia.
  - intros (i & Hi & Hlen).
    destruct (item_some _ _ _ Hi) as (x & Hx & _).
    pose proof (item_lt _ _ _ Hi) as Hlt.
    exists x. split.
    + apply (nth_error_In _ (i - (List.length data - 2))).
      rewrite nth_error_skipn.
      replace (List.length data - 2 + (i - (List.length data - 2))) with i
        by lia.
      exact Hx.
    + apply (is_IAC_item _ _ _ Hx). exact Hi.
Qed.

Lemma print_commands_outcome (data : bytes) (s : session) :
  (existsb is_IAC (last_two data) = false ->
   exists s', print_commands data s = Ret tt s') /\
  (existsb is_IAC (last_two data) = true ->
   exists s', print_commands data s = Raise IndexError s').
Proof.
  assert (Hl : Forall (fun i => i < List.length data)
                 (seq 0 (List.length data))).
  { apply Forall_forall. intros i Hi. apply in_seq in Hi. lia. }
  unfold print_commands. split; intros H.
  - apply for_each_print_complete; trivial.
    intros i _ Hi.
    destruct (Nat.lt_ge_cases (i + 2) (List.length data)) as [Hok|Hbad];
      trivial.
    exfalso. apply not_true_iff_false in H. apply H.
    apply last_two_IAC. eauto.
  - apply last_two_IAC in H as (i & Hi & Hlen).
    apply for_each_print_dangling; trivial.
    exists i. repeat split; trivial.
    apply in_seq. pose proof (item_lt _ _ _ Hi). lia.
Qed.


(** X3. The debug printer only ever prints, but with [debug] on it can
    bring the client down: [print_debug] raises IndexError exactly when
    one of the last two bytes of the data is the escape byte 255, because
    it then reads a verb or an option id past the end. In every other case,
    and always with [debug] off, it returns. Either way the flags, the
    pending input and the traffic are as before. *)
Theorem print_debug_outcome (host : string) (data : bytes) (s : session) :
  (debug s && existsb is_IAC (last_two data) = false ->
   exists s', print_debug host data s = Ret tt s' /\ only_prints s s') /\
  (debug s && existsb is_IAC (last_two data) = true ->
   exists s', print_debug host data s = Raise IndexError s' /\
              only_prints s s').
Proof.
  pose proof (print_debug_only_prints host data s) as Hk.
  destruct (print_commands_outcome data (log_line (LDebug host data) s))
    as (Hret & Hraise).
  destruct (debug s) eqn:D; simpl.
  - split; intros H.
    + destruct (Hret H) as (s1 & E1).
      assert (E : print_debug host data s = Ret tt (log_line LBlank s1)).
      { unfold print_debug. rewrite D. cbn [negb].
        unfold bind at 1. unfold print at 1. bind_ret E1. reflexivity. }
      rewrite E in Hk. eauto.
    + destruct (Hraise H) as (s1 & E1).
      assert (E : print_debug host data s = Raise IndexError s1).
      { unfold print_debug. rewrite D. cbn [negb].
        unfold bind at 1. unfold print at 1. bind_raise E1. reflexivity. }
      rewrite E in Hk. eauto.
  - split; intros H; [|discriminate].
    exists s. rewrite print_debug_off by trivial.
    split; [reflexivity | apply only_prints_refl].
Qed.

Lemma print_debug_outcome_witness :
  (exists s', print_debug "peer" [x41; xff; xfd; x01] (fresh true []) =
              Ret tt s' /\ only_prints (fresh true []) s') /\
  (exists s', print_debug "peer" [x41; xff; xfd] (fresh true []) =
              Raise IndexError s' /\ only_prints (fresh true []) s').
Proof.
  destruct (print_debug_outcome "peer" [x41; xff; xfd; x01] (fresh true []))
    as (H1 & _).
  destruct (print_debug_outcome "peer" [x41; xff; xfd] (fresh true []))
    as (_ & H2).
  split; [apply H1 | apply H2]; reflexivity.
Defined.

(** ** [write] on a session that is logged in *)



(** ** What [negotiate] can do *)

(** The four ways in which one turn of the scan can go. *)
Lemma negotiate_body_cases (data : bytes) (pos : nat) (s : session) :
  negotiate_body data pos s = Ret (pos + 1) s \/
  (exists v o s1,
     only_prints s s1 /\ (v = xfe \/ v = xfc) /\
     negotiate_body data pos s =
     Ret (pos + 2) (log_io (EvSend [xff; v; o]) s1)) \/
  (exists s1, only_prints s s1 /\
              negotiate_body data pos s = Raise IndexError s1) \/
  (exists c, negotiate_body data pos s =
             Exit 0%Z (log_line (LNoMethod c) s)).
Proof.
  destruct (item data pos) as [z|] eqn:H0.
  2:{ right. right. left. exists s. split; [apply only_prints_refl|].
      unfold negotiate_body.
      bind_raise (getitem_Raise data pos s H0). reflexivity. }
  destruct (Z.eq_dec z IAC) as [->|Hz];
    [|left; apply (negotiate_body_plain data pos z s H0 Hz)].
  destruct (item data (pos + 1)) as [c|] eqn:H1.
  2:{ right. right. left. exists s. split; [apply only_prints_refl|].
      apply negotiate_body_no_verb; trivial. }
  destruct (Z.eq_dec c IAC) as [->|Hc];
    [left; apply negotiate_body_doubled; trivial|].
  destruct (item data (pos + 2)) as [val|] eqn:H2.
  2:{ right. right. left. exists s. split; [apply only_prints_refl|].
      apply (negotiate_body_no_option data pos c); trivial. }
  destruct (Z.eq_dec c WILL) as [Hw|Hw];
    [|destruct (Z.eq_dec c DO) as [Hd|Hd]].
  3:{ right. right. right. exists c.
      rewrite (negotiate_body_command data pos c val s); trivial.
      bind_exit (handle_command_other c val s Hw Hd). reflexivity. }
  all: destruct (item_some _ _ _ H2) as (o & _ & ->).
  all: assert (Hv : c = WILL \/ c = DO) by tauto.
  all: pose proof (negotiate_body_answer data pos c o s H0 H1 Hv H2) as Hb.
  all: pose proof (print_debug_only_prints (client s)
                     [xff; counter_verb c; o] s) as Hk.
  all: destruct (print_debug_cases (client s) [xff; counter_verb c; o] s)
      as [(s1 & E1 & _)|(_ & s1 & E1)]; rewrite E1 in Hk; simpl in Hk.
  all: try (right; right; left; exists s1; split; trivial;
            rewrite Hb; bind_raise E1; reflexivity).
  all: right; left; exists (counter_verb c), o, s1.
  all: split; [exact Hk|]; split;
    [subst c; vm_compute; tauto | rewrite Hb; bind_ret E1; reflexivity].
Qed.

Lemma only_refuses_refl (s : session) : only_refuses s s.
Proof.
  split; [apply same_flags_refl|]. split; trivial.
  exists []. simpl. rewrite app_nil_r. split; reflexivity.
Qed.

Lemma only_refuses_trans (s1 s2 s3 : session) :
  only_refuses s1 s2 -> only_refuses s2 s3 -> only_refuses s1 s3.
Proof.
  intros (F1 & I1 & l1 & T1 & R1) (F2 & I2 & l2 & T2 & R2).
  split; [apply (same_flags_trans s1 s2 s3 F1 F2)|].
  split; [congruence|].
  exists (l1 ++ l2). split.
  - rewrite T2, T1, map_app, app_assoc. reflexivity.
  - rewrite forallb_app, R1, R2. reflexivity.
Qed.

Lemma only_prints_refuses (s s1 : session) :
  only_prints s s1 -> only_refuses s s1.
Proof.
  intros (F & I & T). split; trivial. split; trivial.
  exists []. simpl. rewrite app_nil_r. split; trivial.
Qed.

Lemma negotiate_loop_refuses (data : bytes) :
  forall fuel pos s,
    post (only_refuses s) (negotiate_loop fuel data pos s) /\
    (List.length data <= pos + fuel ->
     negotiate_ending (ending_of (negotiate_loop fuel data pos s))).
Proof.
  induction fuel as [|fuel IH]; intros pos s.
  - simpl. destruct (pos <? List.length data) eqn:E; simpl.
    + split; trivial. apply Nat.ltb_lt in E. lia.
    + split; [apply only_refuses_refl | left; reflexivity].
  - destruct (Nat.lt_ge_cases pos (List.length data)) as [Hlt|Hge].
    2:{ rewrite negotiate_loop_done by trivial.
        split; [apply only_refuses_refl | left; reflexivity]. }
    rewrite negotiate_loop_S by trivial.
    destruct (negotiate_body_cases data pos s)
      as [E|[(v & o & s1 & P & Hv & E)|[(s1 & P & E)|(c & E)]]].
    + bind_ret E. destruct (IH (pos + 1) s) as (H1 & H2).
      split; [exact H1 | intros; apply H2; lia].
    + bind_ret E.
      destruct (IH (pos + 2) (log_io (EvSend [xff; v; o]) s1)) as (H1 & H2).
      split; [|intros; apply H2; lia].
      assert (R : only_refuses s (log_io (EvSend [xff; v; o]) s1)).
      { destruct P as (F & I & T). split; [exact F|]. split; [exact I|].
        exists [[xff; v; o]]. split.
        - simpl. rewrite T. reflexivity.
        - destruct Hv as [-> | ->]; reflexivity. }
      destruct (negotiate_loop fuel data (pos + 2) _); simpl in *; trivial;
        eapply only_refuses_trans; eauto.
    + bind_raise E. split; [apply only_prints_refuses; exact P|].
      intros _. right. right. reflexivity.
    + bind_exit E. split.
      * apply only_prints_refuses. apply only_prints_line.
      * intros _. right. left. reflexivity.
Qed.

(** X5. Whatever the data and however the scan ends, all that [negotiate]
    has done to the connection is to send refusals: every byte string it
    sent has the form IAC, DONT or WONT, option id. It never agrees to an
    option, never receives, and leaves the flags and the pending input
    alone. *)
Theorem negotiate_only_refuses (data : bytes) :
  keeps only_refuses (negotiate data).
Proof.
  intros s. unfold negotiate. apply negotiate_loop_refuses.
Qed.

(** X6. [negotiate] ends in one of three ways: it returns, it ends the
    process with exit status 0 on a verb it has no handler for, or it
    raises IndexError on a command cut short (or, in debug mode, from the
    debug printer). It raises nothing else, ValueError included, since an
    option id read from the data always fits a byte. *)
Theorem negotiate_endings (data : bytes) :
  ends negotiate_ending (negotiate data).
Proof.
  intros s. unfold negotiate. apply negotiate_loop_refuses. lia.
Qed.

(** ** Scanning data piece by piece *)

Lemma item_app_shift (pre rest : bytes) (i : nat) :
  item (pre ++ rest) (List.length pre + i) = item rest i.
Proof.
  unfold item. rewrite nth_error_app2 by lia.
  replace (List.length pre + i - List.length pre) with i by lia.
  reflexivity.
Qed.

(** A turn of the scan sees the data only from its index on. *)
Lemma negotiate_body_shift (pre rest : bytes) (pos : nat) (s : session) :
  negotiate_body (pre ++ rest) (List.length pre + pos) s =
  (pos' <- negotiate_body rest pos ;; ret (List.length pre + pos')) s.
Proof.
  set (n := List.length pre).
  assert (S1 : item (pre ++ rest) (n + pos + 1) = item rest (pos + 1))
    by (rewrite <- Nat.add_assoc; apply item_app_shift).
  assert (S2 : item (pre ++ rest) (n + pos + 2) = item rest (pos + 2))
    by (rewrite <- Nat.add_assoc; apply item_app_shift).
  pose proof (item_app_shift pre rest pos) as S0. fold n in S0.
  destruct (item rest pos) as [z|] eqn:H0.
  2:{ assert (E : negotiate_body rest pos s = Raise IndexError s).
      { unfold negotiate_body.
        bind_raise (getitem_Raise rest pos s H0). reflexivity. }
      bind_raise E. unfold negotiate_body.
      bind_raise (getitem_Raise (pre ++ rest) (n + pos) s S0). reflexivity. }
  destruct (Z.eq_dec z IAC) as [->|Hz].
  2:{ bind_ret (negotiate_body_plain rest pos z s H0 Hz).
      rewrite (negotiate_body_plain (pre ++ rest) (n + pos) z s S0 Hz).
      unfold ret. f_equal. lia. }
  destruct (item rest (pos + 1)) as [c|] eqn:H1.
  2:{ bind_raise (negotiate_body_no_verb rest pos s H0 H1).
      apply negotiate_body_no_verb; trivial. }
  destruct (Z.eq_dec c IAC) as [->|Hc].
  { bind_ret (negotiate_body_doubled rest pos s H0 H1).
    rewrite (negotiate_body_doubled (pre ++ rest) (n + pos) s S0 S1).
    unfold ret. f_equal. lia. }
  destruct (item rest (pos + 2)) as [v|] eqn:H2.
  2:{ bind_raise (negotiate_body_no_option rest pos c s H0 H1 Hc H2).
      apply (negotiate_body_no_option (pre ++ rest) (n + pos) c); trivial. }
  rewrite (negotiate_body_command (pre ++ rest) (n + pos) c v s); trivial.
  unfold bind at 5.
  rewrite (negotiate_body_command rest pos c v s); trivial.
  cbv [bind get_session send ret].
  destruct (handle_command c v s) as [r s1| | |]; trivial.
  destruct (print_debug (client s1) r s1) as [u s2| | |]; trivial.
  f_equal. lia.
Qed.

Lemma negotiate_loop_shift (pre rest : bytes) :
  forall fuel pos s,
    negotiate_loop fuel (pre ++ rest) (List.length pre + pos) s =
    negotiate_loop fuel rest pos s.
Proof.
  induction fuel as [|fuel IH]; intros pos s; simpl;
    rewrite length_app;
    destruct (Nat.ltb_spec pos (List.length rest)) as [Hlt|Hge];
    destruct (Nat.ltb_spec (List.length pre + pos)
                (List.length pre + List.length rest)); try lia; trivial.
  unfold bind at 1. rewrite negotiate_body_shift. unfold bind.
  destruct (negotiate_body rest pos s) as [p s1| | |]; trivial.
  unfold ret. apply IH.
Qed.

(** Any number of turns that is enough gives the same result. *)
Lemma negotiate_loop_fuel (data : bytes) :
  forall f1 f2 pos s,
    List.length data <= pos + f1 -> List.length data <= pos + f2 ->
    negotiate_loop f1 data pos s = negotiate_loop f2 data pos s.
Proof.
  induction f1 as [|f1 IH]; intros f2 pos s H1 H2.
  - rewrite !negotiate_loop_done by lia. reflexivity.
  - destruct (Nat.lt_ge_cases pos (List.length data)) as [Hlt|Hge];
      [|rewrite !negotiate_loop_done by lia; reflexivity].
    destruct f2 as [|f2]; [lia|].
    rewrite !negotiate_loop_S by trivial. unfold bind.
    pose proof (negotiate_body_advances data pos s) as Ha.
    destruct (negotiate_body data pos s) as [p s1| | |]; trivial.
    specialize (Ha p s1 eq_refl). apply IH; lia.
Qed.

Lemma negotiate_loop_from (pre rest : bytes) (fuel : nat) (s : session) :
  List.length rest <= fuel ->
  negotiate_loop fuel (pre ++ rest) (List.length pre) s = negotiate rest s.
Proof.
  intros H. rewrite <- (Nat.add_0_r (List.length pre)).
  rewrite negotiate_loop_shift. unfold negotiate.
  apply negotiate_loop_fuel; lia.
Qed.

Lemma not_is_IAC (x : byte) : is_IAC x = false -> x <> xff.
Proof. intros H E. subst. discriminate. Qed.

(** Text before the first escape byte is passed over. *)
Lemma negotiate_app_plain (t rest : bytes) (s : session) :
  existsb is_IAC t = false ->
  negotiate (t ++ rest) s = negotiate rest s.
Proof.
  induction t as [|x t IH]; intros H; trivial.
  simpl in H. apply orb_false_iff in H as (Hx & Ht).
  rewrite <- (IH Ht). clear IH.
  change ((x :: t) ++ rest) with ([x] ++ (t ++ rest)).
  unfold negotiate at 1. rewrite length_app. simpl List.length.
  rewrite negotiate_loop_S by (rewrite length_app; simpl; lia).
  assert (E : negotiate_body ([x] ++ (t ++ rest)) 0 s = Ret (0 + 1) s).
  { apply (negotiate_body_plain _ 0 (int_of_byte x)); [reflexivity|].
    apply Z.eqb_neq, not_IAC, not_is_IAC, Hx. }
  bind_ret E. apply (negotiate_loop_from [x] (t ++ rest)). lia.
Qed.

(** A request at the head of the data is answered, and the scan goes on
    behind it. *)
Lemma negotiate_app_request (verb opt : byte) (rest : bytes) (s : session) :
  well_formed (Request verb opt) = true ->
  negotiate ([xff; verb; opt] ++ rest) s =
  (print_debug (client s) [xff; counter_verb (int_of_byte verb); opt] ;;
   send [xff; counter_verb (int_of_byte verb); opt] ;;
   negotiate rest) s.
Proof.
  intros H. simpl in H. apply andb_true_iff in H as (Hv & Ho).
  apply negb_true_iff in Ho.
  assert (Hv' : int_of_byte verb = WILL \/ int_of_byte verb = DO).
  { apply orb_true_iff in Hv as [Hv|Hv]; apply Byte.byte_dec_bl in Hv;
      subst; [left | right]; reflexivity. }
  set (data := [xff; verb; opt] ++ rest).
  set (resp := [xff; counter_verb (int_of_byte verb); opt]).
  pose proof (negotiate_body_answer data 0 (int_of_byte verb) opt s
                eq_refl eq_refl Hv' eq_refl) as Hb.
  fold resp in Hb.
  unfold negotiate at 1.
  replace (List.length data) with (S (S (S (List.length rest))))
    by (unfold data; rewrite length_app; reflexivity).
  rewrite negotiate_loop_S by (unfold data; rewrite length_app; simpl; lia).
  unfold bind at 1. rewrite Hb. unfold bind at 1 3.
  destruct (print_debug (client s) resp s) as [u s1| | |]; trivial.
  unfold bind at 1 2. unfold send, ret at 1.
  rewrite negotiate_loop_S by (unfold data; rewrite length_app; simpl; lia).
  assert (E : negotiate_body data (0 + 2) (log_io (EvSend resp) s1) =
              Ret (0 + 2 + 1) (log_io (EvSend resp) s1)).
  { apply (negotiate_body_plain _ _ (int_of_byte opt)); [reflexivity|].
    apply Z.eqb_neq, not_IAC, not_is_IAC, Ho. }
  bind_ret E.
  apply (negotiate_loop_from [xff; verb; opt] rest). lia.
Qed.

(** X7. On well-formed traffic (text without the escape byte, and requests
    IAC, WILL or DO, option id with an option id other than 255)
    [negotiate] returns, and what it has sent is exactly one refusal for
    each request, in the order of the requests: DONT for a WILL, WONT for
    a DO, with the option id of the request. Text is passed over. *)
Theorem negotiate_well_formed (l : list segment) :
  forallb well_formed l = true ->
  forall s, exists s',
    negotiate (render l) s = Ret tt s' /\
    trace s' = trace s ++ map EvSend (refusals l) /\
    inbox s' = inbox s /\ same_flags s s'.
Proof.
  induction l as [|g l IH]; intros H s.
  - exists s. simpl. rewrite app_nil_r.
    repeat split.
  - simpl in H. apply andb_true_iff in H as (Hg & Hl).
    specialize (IH Hl). destruct g as [t|verb opt].
    + simpl in Hg. apply negb_true_iff in Hg.
      change (render (Text t :: l)) with (t ++ render l).
      rewrite (negotiate_app_plain t (render l) s Hg). apply IH.
    + change (render (Request verb opt :: l))
        with ([xff; verb; opt] ++ render l).
      rewrite (negotiate_app_request verb opt (render l) s Hg).
      pose proof Hg as Hg'. simpl in Hg'.
      apply andb_true_iff in Hg' as (Hv & Ho). apply negb_true_iff in Ho.
      assert (Hx : counter_verb (int_of_byte verb) <> xff).
      { unfold counter_verb. destruct (int_of_byte verb =? WILL)%Z;
          discriminate. }
      destruct (print_debug_response (client s)
                  (counter_verb (int_of_byte verb)) opt s Hx
                  (or_intror (not_is_IAC opt Ho)))
        as (s1 & E1 & (F1 & I1 & T1)).
      bind_ret E1. unfold bind at 1. unfold send at 1.
      destruct (IH (log_io (EvSend [xff; counter_verb (int_of_byte verb); opt])
                      s1)) as (s' & E & T & I & F).
      exists s'. split; [exact E|]. split; [|split].
      * rewrite T. simpl. rewrite T1, <- app_assoc. reflexivity.
      * rewrite I. exact I1.
      * apply (same_flags_trans s s1 s' F1). exact F.
Qed.

Lemma negotiate_well_formed_witness :
  let l := [Text (b "hi"); Request xfd x18; Request xfb x01; Text (b "$ ")] in
  exists s',
    negotiate (render l) (fresh true []) = Ret tt s' /\
    trace s' = trace (fresh true []) ++
               map EvSend [[xff; xfc; x18]; [xff; xfe; x01]] /\
    inbox s' = inbox (fresh true []) /\ same_flags (fresh true []) s'.
Proof.
  apply (negotiate_well_formed
           [Text (b "hi"); Request xfd x18; Request xfb x01; Text (b "$ ")]).
  reflexivity.
Defined.

(** X8. A command cut short at the end of the data makes [negotiate]
    raise IndexError: after text without the escape byte, a lone final IAC,
    or a final IAC with a verb and no option id, cannot be read to the end.
    This holds for any verb but IAC, also one without a handler (the option
    id is read before the verb is looked at), and nothing has been sent. *)
Theorem negotiate_cut_short (t : bytes) (verb : byte) (s : session) :
  existsb is_IAC t = false ->
  negotiate (t ++ [xff]) s = Raise IndexError s /\
  (is_IAC verb = false ->
   negotiate (t ++ [xff; verb]) s = Raise IndexError s).
Proof.
  intros Ht. split.
  - rewrite (negotiate_app_plain t [xff] s Ht). reflexivity.
  - intros Hv. rewrite (negotiate_app_plain t [xff; verb] s Ht).
    unfold negotiate. simpl List.length.
    rewrite negotiate_loop_S by (simpl; lia).
    assert (E : negotiate_body [xff; verb] 0 s = Raise IndexError s).
    { apply (negotiate_body_no_option _ 0 (int_of_byte verb));
        try reflexivity.
      apply Z.eqb_neq, not_IAC, not_is_IAC, Hv. }
    bind_raise E. reflexivity.
Qed.

Lemma negotiate_cut_short_witness :
  negotiate (b "ab" ++ [xff]) (fresh false []) =
  Raise IndexError (fresh false []) /\
  (is_IAC xfc = false ->
   negotiate (b "ab" ++ [xff; xfc]) (fresh false []) =
   Raise IndexError (fresh false [])).
Proof.
  apply (negotiate_cut_short (b "ab") xfc (fresh false [])). reflexivity.
Defined.

(** ** A byte string that holds the phrase *)

Lemma receive_quiet (s : session) (c : bytes) (rest : list bytes) :
  debug s = false -> inbox s = c :: rest ->
  receive s = Ret c (log_io (EvRecv c) (set_inbox rest s)).
Proof.
  intros D I. unfold receive.
  assert (E : recv s = Ret c (log_io (EvRecv c) (set_inbox rest s)))
    by (unfold recv; rewrite I; reflexivity).
  bind_ret E. unfold bind at 1. unfold get_session at 1.
  set (s1 := log_io (EvRecv c) (set_inbox rest s)).
  assert (Ep : print_debug (serv s1) c s1 = Ret tt s1)
    by (apply print_debug_off; exact D).
  bind_ret Ep. reflexivity.
Qed.

(** X9. With [debug] off, when the next byte string from the peer is not
    empty and holds the phrase, [read_until] returns after that one
    receive. The byte string is not negotiated: whatever requests it
    carries beside the phrase stay unanswered, nothing is sent, and the
    rest of the peer's data is still pending. *)
Theorem read_until_first_chunk (phrase : string) (ph c : bytes)
    (rest : list bytes) (s : session) :
  debug s = false ->
  inbox s = c :: rest -> c <> [] ->
  encode_ascii phrase = Some ph ->
  bytes_in ph c = true ->
  read_until phrase s = Ret tt (log_io (EvRecv c) (set_inbox rest s)).
Proof.
  intros D I Hc He Hin. unfold read_until.
  unfold bind at 1. unfold encode. rewrite He. unfold ret at 1.
  unfold bind at 1. unfold get_session at 1.
  rewrite read_until_loop_S. bind_ret (receive_quiet s c rest D I).
  destruct c as [|x c]; [congruence|]. rewrite Hin. reflexivity.
Qed.

Lemma read_until_first_chunk_witness :
  let c := b "login: " ++ [xff; xfd; x18] in
  let s := fresh false [c; b "Password: "] in
  read_until "ogin" s =
  Ret tt (log_io (EvRecv c) (set_inbox [b "Password: "] s)).
Proof.
  apply (read_until_first_chunk "ogin" (b "ogin")
           (b "login: " ++ [xff; xfd; x18]) [b "Password: "]
           (fresh false [b "login: " ++ [xff; xfd; x18]; b "Password: "]));
    first [reflexivity | discriminate].
Defined.

(** X10. With [debug] off, a byte string that is not empty and does not
    hold the phrase is handed to [negotiate], and after that [read_until]
    carries on exactly as a fresh call would on what the peer has left. *)
Theorem read_until_next_chunk (phrase : string) (ph c : bytes)
    (rest : list bytes) (s : session) :
  debug s = false ->
  inbox s = c :: rest -> c <> [] ->
  encode_ascii phrase = Some ph ->
  bytes_in ph c = false ->
  read_until phrase s =
  (negotiate c ;; read_until phrase) (log_io (EvRecv c) (set_inbox rest s)).
Proof.
  intros D I Hc He Hin. unfold read_until at 1.
  unfold bind at 1. unfold encode. rewrite He. unfold ret at 1.
  unfold bind at 1. unfold get_session at 1.
  rewrite read_until_loop_S. bind_ret (receive_quiet s c rest D I).
  destruct c as [|x c]; [congruence|]. rewrite Hin.
  rewrite I. simpl List.length.
  unfold bind at 1 2.
  pose proof (negotiate_same_conn (x :: c)
                (log_io (EvRecv (x :: c)) (set_inbox rest s))) as Hk.
  destruct (negotiate (x :: c) _) as [u s2| | |]; trivial.
  destruct Hk as (_ & I2 & _). simpl in I2.
  unfold read_until, bind, encode. rewrite He.
  unfold ret at 1, get_session. rewrite I2. reflexivity.
Qed.

Lemma read_until_next_chunk_witness :
  let c := [xff; xfd; x18] in
  let s := fresh false [c; b "login: "] in
  read_until "ogin" s =
  (negotiate c ;; read_until "ogin")
    (log_io (EvRecv c) (set_inbox [b "login: "] s)).
Proof.
  apply (read_until_next_chunk "ogin" (b "ogin") [xff; xfd; x18]
           [b "login: "] (fresh false [[xff; xfd; x18]; b "login: "]));
    first [reflexivity | discriminate].
Defined.

(** ** What [expect] can return *)

(** X11. Whatever [expect] returns is a real match: an index into the
    list of phrases together with the bytes of the phrase at that index,
    and that phrase lies whole in one of the byte strings of the peer. The
    pair [(-1, None)] that the docstring announces is never returned, and
    with an empty list of phrases [expect] does not return at all. *)
Theorem expect_returns_match (phrases : list string) (s s' : session)
    (r : match_result) :
  expect phrases s = Ret r s' ->
  (exists k phrase ph chunk,
     r = (Z.of_nat k, Some ph) /\
     nth_error phrases k = Some phrase /\
     encode_ascii phrase = Some ph /\
     In chunk (inbox s) /\ bytes_in ph chunk = true) /\
  r <> ((-1)%Z, None) /\ phrases <> [].
Proof.
  intros H. destruct r as [j r].
  unfold expect, bind, get_session in H.
  apply expect_loop_inv in H
    as (k & phrase & ph & chunk & Hk & Hp & Hc & Hb & -> & -> & _).
  split; [|split].
  - exists k, phrase, ph, chunk. repeat split; trivial.
  - discriminate.
  - intros ->. destruct k; discriminate.
Qed.

Lemma expect_returns_match_witness :
  let s := fresh false [[xff; xfb; x01]; b "bob@host $ "] in
  exists r s',
    expect (chars prompts) s = Ret r s' /\
    r <> ((-1)%Z, None) /\ chars prompts <> [].
Proof.
  cbv zeta. eexists. eexists.
  split; [vm_compute; reflexivity|].
  eapply (expect_returns_match (chars prompts)
            (fresh false [[xff; xfb; x01]; b "bob@host $ "])).
  vm_compute. reflexivity.
Defined.

(** ** [match_phrase] on ASCII phrases *)

Lemma match_phrase_from_ascii (data : bytes) (s : session) :
  forall phrases i,
    forallb encodable phrases = true ->
    exists j r,
      match_phrase_from i phrases data s = Ret (j, r) s /\
      ((j = (-1)%Z /\ r = None) \/
       (i <= j < i + Z.of_nat (List.length phrases))%Z /\ r <> None) /\
      (r = None <-> forallb (misses data) phrases = true).
Proof.
  induction phrases as [|p phrases IH]; intros i H.
  - exists (-1)%Z, None. simpl. repeat split; auto.
  - simpl in H. apply andb_true_iff in H as (Hp & H).
    unfold encodable in Hp.
    destruct (encode_ascii p) as [e|] eqn:He; [|discriminate].
    simpl. unfold bind at 1. unfold encode. rewrite He. unfold ret at 1.
    unfold misses at 1. rewrite He.
    destruct (bytes_in e data) eqn:Hin.
    + exists i, (Some e). split; [reflexivity|]. split.
      * right. split; [lia | discriminate].
      * simpl. split; discriminate.
    + destruct (IH (i + 1)%Z H) as (j & r & E & Hj & Hr).
      exists j, r. split; [exact E|]. split.
      * destruct Hj as [Hj|(Hj & Hn)]; [left; exact Hj|].
        right. split; [lia | exact Hn].
      * simpl. exact Hr.
Qed.

(** X12. On phrases that are all ASCII, [match_phrase] always returns and
    leaves the session alone. Its result is [(-1, None)] exactly when none
    of the phrases occurs in the data, which covers the empty list; else
    it is an index into the list with the bytes found. *)
Theorem match_phrase_ascii (phrases : list string) (data : bytes)
    (s : session) :
  forallb encodable phrases = true ->
  exists j r,
    match_phrase phrases data s = Ret (j, r) s /\
    ((j = (-1)%Z /\ r = None) \/
     (0 <= j < Z.of_nat (List.length phrases))%Z /\ r <> None) /\
    (r = None <-> forallb (misses data) phrases = true).
Proof.
  intros H. unfold match_phrase.
  destruct (match_phrase_from_ascii data s phrases 0%Z H)
    as (j & r & E & Hj & Hr).
  exists j, r. repeat split; trivial; apply Hr.
Qed.

Lemma match_phrase_ascii_witness :
  exists j r,
    match_phrase expected (b "Last login: never") (fresh false []) =
    Ret (j, r) (fresh false []) /\
    ((j = (-1)%Z /\ r = None) \/
     (0 <= j < Z.of_nat (List.length expected))%Z /\ r <> None) /\
    (r = None <->
     forallb (misses (b "Last login: never")) expected = true).
Proof.
  apply (match_phrase_ascii expected (b "Last login: never")
           (fresh false [])).
  reflexivity.
Defined.

(** ** A login that works *)

Lemma read_until_hit (phrase : string) (ph c : bytes) (rest : list bytes)
    (s : session) :
  debug s = false ->
  inbox s = c :: rest ->
  encode_ascii phrase = Some ph ->
  ph <> [] -> bytes_in ph c = true ->
  read_until phrase s = Ret tt (log_io (EvRecv c) (set_inbox rest s)).
Proof.
  intros D I He Hp Hin. unfold read_until.
  unfold bind at 1. unfold encode. rewrite He. unfold ret at 1.
  unfold bind at 1. unfold get_session at 1.
  rewrite read_until_loop_S. bind_ret (receive_quiet s c rest D I).
  destruct c as [|x c].
  - destruct ph; [congruence | discriminate].
  - rewrite Hin. reflexivity.
Qed.

Lemma expect_hit (phrases : list string) (c : bytes) (rest : list bytes)
    (s : session) (j : Z) (r : option bytes) :
  debug s = false ->
  inbox s = c :: rest -> c <> [] ->
  match_phrase phrases c (log_io (EvRecv c) (set_inbox rest s)) =
  Ret (j, r) (log_io (EvRecv c) (set_inbox rest s)) ->
  j <> (-1)%Z ->
  expect phrases s = Ret (j, r) (log_io (EvRecv c) (set_inbox rest s)).
Proof.
  intros D I Hc Hm Hj. unfold expect.
  unfold bind at 1. unfold get_session at 1.
  rewrite expect_loop_S. bind_ret (receive_quiet s c rest D I).
  destruct c as [|x c]; [congruence|].
  bind_ret Hm. cbn [fst]. apply Z.eqb_neq in Hj. rewrite Hj. reflexivity.
Qed.

(** The list [login] waits for, matched against data without 'ncorrect'
    and with some prompt character: the index is that of a prompt. *)
Lemma match_phrase_prompt (c : bytes) (s : session) :
  bytes_in (b "ncorrect") c = false ->
  forallb (misses c) (chars prompts) = false ->
  exists j r, match_phrase expected c s = Ret (j, r) s /\ (0 < j)%Z.
Proof.
  intros Hn Hp.
  destruct (match_phrase_from_ascii c s expected 0%Z eq_refl)
    as (j & r & E & Hj & Hr).
  exists j, r. split; [exact E|].
  assert (Hnone : r <> None).
  { intros Hr'. apply Hr in Hr'.
    change (forallb (misses c) expected)
      with (misses c "ncorrect" && forallb (misses c) (chars prompts))
      in Hr'.
    apply andb_true_iff in Hr' as (_ & Hr'). congruence. }
  destruct Hj as [(_ & Hj)|(Hj & _)]; [congruence|].
  destruct (Z.eq_dec j 0) as [->|]; [|lia].
  exfalso. unfold match_phrase in E.
  apply match_phrase_from_inv in E
    as [(E & _)|(k & phrase & ph & Hk & He & Hb & Hjk & _)]; [discriminate|].
  assert (k = 0) as -> by lia. simpl in Hk. injection Hk as <-.
  injection He as <-. change (list_byte_of_string "ncorrect")
    with (b "ncorrect") in Hb. congruence.
Qed.

(** X13. A login that works. With [debug] off, if the peer's next three
    byte strings hold 'ogin', then 'assword', then some prompt character
    without 'ncorrect', and user name and password are ASCII, [login]
    returns with [logged_in] set. It has sent the user name after the first
    byte string and the password after the second, each with a newline and
    nothing else, has printed nothing, and has left the rest of the peer's
    data pending. *)
Theorem login_succeeds (username password : string) (ub pb c1 c2 c3 : bytes)
    (rest : list bytes) (s : session) :
  debug s = false ->
  inbox s = c1 :: c2 :: c3 :: rest ->
  encode_ascii (username ++ newline) = Some ub ->
  encode_ascii (password ++ newline) = Some pb ->
  bytes_in (b "ogin") c1 = true ->
  bytes_in (b "assword") c2 = true ->
  bytes_in (b "ncorrect") c3 = false ->
  forallb (misses c3) (chars prompts) = false ->
  exists s',
    login username password s = Ret tt s' /\
    logged_in s' = true /\
    trace s' = trace s ++
               [EvRecv c1; EvSend ub; EvRecv c2; EvSend pb; EvRecv c3] /\
    inbox s' = rest /\ stdout s' = stdout s.
Proof.
  intros D I Hu Hp H1 H2 Hn Hpr.
  set (s1 := log_io (EvRecv c1) (set_inbox (c2 :: c3 :: rest) s)).
  set (s2 := log_io (EvSend ub) s1).
  set (s3 := log_io (EvRecv c2) (set_inbox (c3 :: rest) s2)).
  set (s4 := log_io (EvSend pb) s3).
  set (s5 := log_io (EvRecv c3) (set_inbox rest s4)).
  assert (R1 : read_until "ogin" s = Ret tt s1)
    by (apply (read_until_hit "ogin" (b "ogin")); trivial; discriminate).
  assert (R2 : read_until "assword" s2 = Ret tt s3)
    by (apply (read_until_hit "assword" (b "assword")); trivial;
        discriminate).
  assert (P2 : print_debug (client s2) ub s2 = Ret tt s2)
    by (apply print_debug_off; exact D).
  assert (P4 : print_debug (client s4) pb s4 = Ret tt s4)
    by (apply print_debug_off; exact D).
  assert (L : login_prompts username password s = Ret tt s4).
  { unfold login_prompts. unfold bind at 1. unfold encode at 1.
    rewrite Hu. unfold ret at 1. bind_ret R1.
    unfold bind at 1. unfold send at 1. fold s2.
    unfold bind at 1. unfold get_session at 1. bind_ret P2.
    unfold bind at 1. unfold encode at 1. rewrite Hp. unfold ret at 1.
    bind_ret R2.
    unfold bind at 1. unfold send at 1. fold s4.
    unfold bind at 1. unfold get_session at 1. exact P4. }
  destruct (match_phrase_prompt c3 s5 Hn Hpr) as (j & r & Em & Hj).
  assert (Hc3 : c3 <> []) by (intros ->; discriminate).
  assert (E : expect expected s4 = Ret (j, r) s5)
    by (apply expect_hit; trivial; lia).
  exists (set_logged_in true s5). split.
  - unfold login. bind_ret L. bind_ret E. unfold login_decide. cbn [fst].
    apply Z.gtb_lt in Hj. rewrite Hj. reflexivity.
  - repeat split. simpl. rewrite <- !app_assoc. reflexivity.
Qed.

Lemma login_succeeds_witness :
  let s := fresh false [b "login: "; b "Password: "; b "bob@host:~> "; b "x"] in
  exists s',
    login "bob" "secret" s = Ret tt s' /\
    logged_in s' = true /\
    trace s' = trace s ++
               [EvRecv (b "login: "); EvSend (b "bob" ++ [x0a]);
                EvRecv (b "Password: "); EvSend (b "secret" ++ [x0a]);
                EvRecv (b "bob@host:~> ")] /\
    inbox s' = [b "x"] /\ stdout s' = stdout s.
Proof.
  apply (login_succeeds "bob" "secret" (b "bob" ++ [x0a])
           (b "secret" ++ [x0a]) (b "login: ") (b "Password: ")
           (b "bob@host:~> ") [b "x"]
           (fresh false [b "login: "; b "Password: "; b "bob@host:~> ";
                         b "x"]));
    reflexivity.
Defined.

(** X14. A password that is not ASCII is found out late: it is converted
    only after the login prompt has been waited for and the user name has
    been sent. [login] then raises UnicodeEncodeError with the user name on
    the wire as the last traffic, and [logged_in] as it was. *)
Theorem login_password_not_ascii (username password : string) (ub : bytes)
    (s s1 : session) :
  encode_ascii (username ++ newline) = Some ub ->
  read_until "ogin" s = Ret tt s1 ->
  encode_ascii (password ++ newline) = None ->
  exists s2,
    login username password s = Raise UnicodeEncodeError s2 /\
    trace s2 = trace s1 ++ [EvSend ub] /\
    logged_in s2 = logged_in s.
Proof.
  intros Hu R1 Hp.
  pose proof (print_debug_no_IAC (client (log_io (EvSend ub) s1)) ub
                (log_io (EvSend ub) s1) (encode_ascii_no_IAC _ _ Hu)) as P.
  eexists. split.
  - unfold login, login_prompts. unfold bind at 1. unfold bind at 1.
    unfold encode at 1. rewrite Hu. unfold ret at 1. bind_ret R1.
    unfold bind at 1. unfold send at 1.
    unfold bind at 1. unfold get_session at 1. bind_ret P.
    unfold bind at 1. unfold encode at 1. rewrite Hp. reflexivity.
  - assert (F : same_flags s s1).
    { apply (keeps_Ret same_flags (read_until "ogin") s s1 tt); trivial.
      apply keeps_read_until;
        first [ exact same_flags_refl | exact same_flags_trans
              | exact same_flags_line | exact same_flags_recv
              | intros; apply same_flags_io ]. }
    destruct F as (_ & L & _).
    destruct (debug (log_io (EvSend ub) s1)); simpl; rewrite L;
      split; reflexivity.
Qed.

Lemma login_password_not_ascii_witness :
  exists s2,
    login "bob" (String (ascii_of_nat 233) EmptyString)
      (fresh false [b "login: "]) = Raise UnicodeEncodeError s2 /\
    trace s2 = [EvRecv (b "login: ")] ++ [EvSend (b "bob" ++ [x0a])] /\
    logged_in s2 = false.
Proof.
  apply (login_password_not_ascii "bob" (String (ascii_of_nat 233) EmptyString)
           (b "bob" ++ [x0a]) (fresh false [b "login: "])
           (log_io (EvRecv (b "login: "))
              (set_inbox [] (fresh false [b "login: "]))));
    reflexivity.
Defined.

(** ** Flags that stay put *)

Ltac same_flags :=
  first [ exact same_flags_refl | exact same_flags_trans
        | exact same_flags_line | exact same_flags_recv
        | intros; apply same_flags_io ].

Lemma write_same_flags (cmd : string) : keeps same_flags (write cmd).
Proof.
  unfold write.
  apply (keeps_bind same_flags same_flags_trans); [apply keeps_get_session; same_flags | intros s0].
  destruct (logged_in s0).
  - apply (keeps_bind same_flags same_flags_trans); [apply keeps_expect; same_flags | intros _].
    apply (keeps_bind same_flags same_flags_trans); [apply keeps_encode; same_flags | intros c].
    apply (keeps_bind same_flags same_flags_trans); [apply keeps_send; same_flags | intros _].
    apply (keeps_bind same_flags same_flags_trans); [apply keeps_get_session; same_flags | intros s1].
    apply (keeps_bind same_flags same_flags_trans); [apply keeps_print_debug; same_flags | intros _].
    apply (keeps_bind same_flags same_flags_trans); [apply keeps_recv; same_flags | intros output].
    apply (keeps_bind same_flags same_flags_trans); [apply keeps_get_session; same_flags | intros s2].
    apply (keeps_bind same_flags same_flags_trans); [apply keeps_print_debug; same_flags | intros _].
    apply keeps_ret; same_flags.
  - apply (keeps_bind same_flags same_flags_trans); [apply keeps_print; same_flags | intros _].
    apply (keeps_bind same_flags same_flags_trans); [apply keeps_print; same_flags | intros _].
    apply keeps_ret; same_flags.
Qed.

(** X15. Neither [negotiate] nor [read_until], [expect] or [write] ever
    changes [logged_in], [debug] or the two host names, whether the call
    returns, exits or raises: a session is logged in or out by [login] and
    [close] alone, and debug mode, once on, stays on. *)
Theorem flags_stay (data : bytes) (phrase cmd : string)
    (phrases : list string) :
  keeps same_flags (negotiate data) /\
  keeps same_flags (read_until phrase) /\
  keeps same_flags (expect phrases) /\
  keeps same_flags (write cmd).
Proof.
  repeat split.
  - apply keeps_negotiate; same_flags.
  - apply keeps_read_until; same_flags.
  - apply keeps_expect; same_flags.
  - apply write_same_flags.
Qed.

(** ** [write] on a dead connection *)

Lemma expect_closed (phrases : list string) (s s1 : session) :
  recv s = Ret [] s1 -> expect phrases s = Exit 1%Z (after_close s1).
Proof.
  intros H. unfold expect. unfold bind at 1. unfold get_session at 1.
  rewrite expect_loop_S. bind_ret (receive_empty s s1 H). reflexivity.
Qed.

(** X17. [write] on a session that is logged in, with a peer that has
    closed the connection: the wait for the prompt receives [b''], the
    process ends with exit status 1, and the command is never sent. *)
Theorem write_peer_closed (cmd : string) (s s1 : session) :
  logged_in s = true ->
  recv s = Ret [] s1 ->
  write cmd s = Exit 1%Z (after_close s1) /\
  sent (after_close s1) = sent s /\
  trace (after_close s1) = trace s ++ [EvRecv []].
Proof.
  intros L H. split.
  - unfold write. unfold bind at 1. unfold get_session at 1. rewrite L.
    bind_exit (expect_closed (chars prompts) s s1 H). reflexivity.
  - apply recv_inv in H as (_ & _ & T & _).
    assert (T' : trace (after_close s1) = trace s ++ [EvRecv []])
      by (unfold after_close; destruct (debug s1); simpl; exact T).
    split; [|exact T'].
    unfold sent. rewrite T', sent_of_app. simpl. apply app_nil_r.
Qed.

Lemma write_peer_closed_witness :
  let s := set_logged_in true (fresh false []) in
  let s1 := log_io (EvRecv []) s in
  write "pwd" s = Exit 1%Z (after_close s1) /\
  sent (after_close s1) = sent s /\
  trace (after_close s1) = trace s ++ [EvRecv []].
Proof.
  apply (write_peer_closed "pwd" (set_logged_in true (fresh false [])));
    reflexivity.
Defined.

(** ** What [login] reports *)

(** X18. Once the final [expect] of [login] has returned, [login] either
    sets [logged_in] and prints nothing (index above 0), or prints its two
    lines about an incorrect user name or password and changes nothing
    else (index 0). The third report in the code, 'Unknown error', cannot
    come up: [expect] never returns a negative index. *)
Theorem login_report (username password : string) (s s1 s2 : session)
    (r : match_result) :
  login_prompts username password s = Ret tt s1 ->
  expect expected s1 = Ret r s2 ->
  ((0 < fst r)%Z /\
   login username password s = Ret tt (set_logged_in true s2)) \/
  (fst r = 0%Z /\
   login username password s =
   Ret tt (log_line (LText "    Incorrect username or password")
             (log_line (LText "[-] Unable to log in") s2))).
Proof.
  intros H1 H2. destruct r as [j r].
  destruct (expect_inv _ _ _ _ _ H2) as (Hj & _).
  assert (E : login username password s = login_decide (j, r) s2).
  { unfold login. bind_ret H1. bind_ret H2. reflexivity. }
  rewrite E. unfold login_decide. cbn [fst].
  destruct (Z.eq_dec j 0) as [->|Hn].
  - right. split; reflexivity.
  - left. split; [lia|].
    replace (j >? 0)%Z with true; [reflexivity|].
    symmetry. apply Z.gtb_lt. lia.
Qed.

Lemma login_report_witness :
  let s := fresh false [b "login: "; b "Password: "; b "Login incorrect"] in
  exists s2,
    ((0 < 0)%Z /\
     login "bob" "guess" s = Ret tt (set_logged_in true s2)) \/
    (0%Z = 0%Z /\
     login "bob" "guess" s =
     Ret tt (log_line (LText "    Incorrect username or password")
               (log_line (LText "[-] Unable to log in") s2))).
Proof.
  cbv zeta. eexists.
  eapply (login_report "bob" "guess"
            (fresh false [b "login: "; b "Password: "; b "Login incorrect"])
            _ _ (0%Z, Some (b "ncorrect"))).
  - vm_compute. reflexivity.
  - vm_compute. reflexivity.
Defined.

(** X19. A failed login followed by commands, as in the example script:
    when [login] on a session that is not logged in ends with index 0, the
    calls of [write] that follow only print their errors. No command is
    sent, nothing more is received, and the session stays logged out. *)
Theorem failed_login_then_write (username password cmd1 cmd2 : string)
    (s s1 s2 : session) (ph : option bytes) :
  logged_in s = false ->
  login_prompts username password s = Ret tt s1 ->
  expect expected s1 = Ret (0%Z, ph) s2 ->
  exists s',
    (login username password ;; write cmd1 ;; write cmd2) s = Ret VNone s' /\
    trace s' = trace s2 /\ inbox s' = inbox s2 /\ logged_in s' = false.
Proof.
  intros L H1 H2.
  pose proof (keeps_Ret _ _ _ _ _
                (login_prompts_same_flags username password) H1)
    as (_ & L1 & _).
  destruct (expect_inv _ _ _ _ _ H2) as (_ & (_ & L2 & _)).
  set (s3 := log_line (LText "    Incorrect username or password")
               (log_line (LText "[-] Unable to log in") s2)).
  assert (E : login username password s = Ret tt s3).
  { unfold login. bind_ret H1. bind_ret H2. reflexivity. }
  assert (L3 : logged_in s3 = false) by (simpl; congruence).
  assert (W : forall cmd s0,
             logged_in s0 = false ->
             write cmd s0 =
             Ret VNone (log_line (LText "    You are not logged in")
                          (log_line (LUnableToWrite cmd) s0))).
  { intros cmd s0 L0. unfold write, bind, get_session. rewrite L0.
    reflexivity. }
  eexists. split.
  - bind_ret E. bind_ret (W cmd1 s3 L3). apply W. exact L3.
  - repeat split. simpl. congruence.
Qed.

Lemma failed_login_then_write_witness :
  let s := fresh true [b "login: "; b "Password: "; b "Login incorrect"] in
  exists s',
    (login "bob" "guess" ;; write "pwd" ;; write "exit") s = Ret VNone s' /\
    sent s' = [b "bob" ++ [x0a]; b "guess" ++ [x0a]] /\
    logged_in s' = false.
Proof.
  cbv zeta.
  edestruct (failed_login_then_write "bob" "guess" "pwd" "exit"
               (fresh true [b "login: "; b "Password: "; b "Login incorrect"]))
    as (s' & E & T & _ & L).
  - reflexivity.
  - vm_compute. reflexivity.
  - vm_compute. reflexivity.
  - exists s'. split; [exact E|]. split; [|exact L].
    unfold sent. rewrite T. reflexivity.
Defined.
